(** * SFML [sf::Text]: layout walk, bounding box cache and quad emission

    Shallow embedding of [src/SFML/Graphics/Text.cpp].

    - C++ [float] is an abstract carrier [F] with the operations the file
      uses ([FloatArith]); every generic theorem holds for any
      interpretation of them.  The instance [binary32] interprets them as
      IEEE 754 single precision (round to nearest, ties to even) through the
      standard library's [SpecFloat] with [prec = 24], [emax = 128].
    - [int], [unsigned int], [unsigned long] and [Uint32] values are [Z];
      [std::size_t] indices are [nat].
    - The font is held through a pointer ([myFont]); pointers are addresses
      [FontPtr] into a store [font_at] of immutable font objects, the null
      pointer is [None].
    - The renderer is a sink of commands; [Render] returns the commands it
      issues, in order.
    - The bounding box cache ([myRectUpdated], [myBaseRect]) is [mutable] in
      the source, so the [const] queries that touch it return the new
      object next to their result. *)

From Stdlib Require Import ZArith List Bool Lia.
From Stdlib Require Import Floats.SpecFloat.
Import ListNotations.

Open Scope Z_scope.

(** ** Floating point interface *)

Class FloatArith (F : Type) : Type := {
  of_int : Z -> F;            (* conversion of an integer value to float *)
  fadd : F -> F -> F;
  fsub : F -> F -> F;
  fmul : F -> F -> F;
  flt : F -> F -> bool;       (* a < b *)
  lit_0_1 : F;                (* 0.1f *)
  lit_0_07 : F;               (* 0.07f *)
  lit_0_208 : F               (* 0.208f *)
}.

(** IEEE 754 binary32. *)
Module B32.
Definition prec : Z := 24.
Definition emax : Z := 128.
Definition float : Type := spec_float.
Definition of_int (n : Z) : float := binary_normalize prec emax n 0 false.
Definition add : float -> float -> float := SFadd prec emax.
Definition sub : float -> float -> float := SFsub prec emax.
Definition mul : float -> float -> float := SFmul prec emax.
Definition div : float -> float -> float := SFdiv prec emax.
Definition ltb : float -> float -> bool := SFltb.
Definition leb : float -> float -> bool := SFleb.
(* the literals, correctly rounded: 0x3DCCCCCD, 0x3D8F5C29, 0x3E54FDF4 *)
Definition lit_0_1 : float := S754_finite false 13421773 (-27).
Definition lit_0_07 : float := S754_finite false 9395241 (-27).
Definition lit_0_208 : float := S754_finite false 13958644 (-26).
End B32.

#[export] Instance binary32 : FloatArith B32.float := {|
  of_int := B32.of_int;
  fadd := B32.add;
  fsub := B32.sub;
  fmul := B32.mul;
  flt := B32.ltb;
  lit_0_1 := B32.lit_0_1;
  lit_0_07 := B32.lit_0_07;
  lit_0_208 := B32.lit_0_208
|}.

(** ** Binary32 rounding, described on integers *)

Abbreviation fexp32 := (fexp 24 128).

(** Number of binary digits of a mantissa. *)
Definition ndigits (m : positive) : Z := Zpos (digits2_pos m).

(** The shift record of a mantissa with no bits shifted out yet. *)
Definition rec0 (m : Z) : shr_record := Build_shr_record m false false.

(** Round [m / 2^n] to the nearest integer, ties to even. *)
Definition rne (m n : Z) : Z :=
  let q := m / 2 ^ n in
  match 2 * (m mod 2 ^ n) ?= 2 ^ n with
  | Lt => q
  | Eq => if Z.even q then q else q + 1
  | Gt => q + 1
  end.

(** A finite number unless the exponent overflows. *)
Definition fin_or_inf (sx : bool) (m : positive) (e : Z) : spec_float :=
  if e <=? 104 then S754_finite sx m e else S754_infinity sx.

(** The value of [binary_round_aux sx (Zpos m) e loc_Exact]. *)
Definition round_pos (sx : bool) (m : positive) (e : Z) : spec_float :=
  let n := fexp32 (ndigits m + e) - e in
  if n <=? 0 then fin_or_inf sx m e
  else
    let q := rne (Zpos m) n in
    if q =? 2 ^ 24 then fin_or_inf sx (2 ^ 23) (e + n + 1)
    else fin_or_inf sx (Z.to_pos q) (e + n).

(** No shift is needed, or the shift leaves 24 digits. *)
Definition shift_ok (m : positive) (e : Z) : Prop :=
  fexp32 (ndigits m + e) - e <= 0 \/ fexp32 (ndigits m + e) - e = ndigits m - 24.

(** A normal binary32 number: 24 digits, exponent within range. *)
Definition normal (m : positive) (e : Z) : Prop :=
  ndigits m = 24 /\ -149 <= e <= 104.

(** The value of a mantissa and exponent, scaled by [2^149]. *)
Definition scaled (m : positive) (e : Z) : Z := Zpos m * 2 ^ (e + 149).

(** An infinity or a normal number of sign [sx]. *)
Definition normalish (sx : bool) (v : spec_float) : Prop :=
  match v with
  | S754_infinity s => s = sx
  | S754_finite s m e => s = sx /\ normal m e
  | _ => False
  end.

(** Values the x cursor takes when nothing negative is added: zero, a
    positive normal number, or [+inf]. *)
Definition cursor_ok (v : spec_float) : Prop :=
  match v with
  | S754_zero _ => True
  | S754_infinity s => s = false
  | S754_nan => False
  | S754_finite s m e => s = false /\ normal m e
  end.

(** Zero, a positive number or [+inf]: not negative and not NaN. *)
Definition not_negative (v : spec_float) : Prop :=
  match v with
  | S754_zero _ => True
  | S754_infinity s => s = false
  | S754_nan => False
  | S754_finite s _ _ => s = false
  end.

(** ** Data model *)

Definition Uint32 : Type := Z.

(** [sf::String]: a sequence of UTF-32 code points. *)
Definition String : Type := list Uint32.

(** Modelled from the spec: [sf::Rect<T>] ([IntRect], [FloatRect]), a
    rectangle given by its left, top, right and bottom sides. *)
Record Rect (T : Type) : Type := mkRect {
  Left : T;
  Top : T;
  Right : T;
  Bottom : T
}.
Arguments mkRect {T} _ _ _ _.
Arguments Left {T} _.
Arguments Top {T} _.
Arguments Right {T} _.
Arguments Bottom {T} _.

Definition IntRect : Type := Rect Z.

(** Modelled from the spec: the flag values of [Text::Style], declared in
    Text.hpp, which is not among the sources.  The style is a bit mask over
    Regular, Bold, Italic and Underlined, freely combinable: Regular is the
    empty mask and the three others are distinct bits. *)
Definition Regular : Z := 0.
Definition Bold : Z := 1.
Definition Italic : Z := 2.
Definition Underlined : Z := 4.

(** Modelled from the spec: [Renderer::PrimitiveType] (Renderer.hpp is not
    among the sources); the text only ever submits quads. *)
Inductive PrimitiveType : Type := QuadList.

(** Addresses of font objects. *)
Definition FontPtr : Type := positive.

Section Model.

Context {F : Type} {FA : FloatArith F}.

Definition FloatRect : Type := Rect F.

Record Vector2f : Type := mkVector2f {
  x : F;
  y : F
}.

(** Modelled from the spec: [sf::Glyph], with the advance, the pixel
    bounds relative to the cursor and the rectangle in the atlas.  The
    advance and the bounds are [int]s, as the casts of Text.cpp show. *)
Record Glyph : Type := mkGlyph {
  Advance : Z;
  Rectangle : IntRect;
  TexCoords : FloatRect
}.

(** Modelled from the spec: [sf::Image], as far as the text uses it: the
    map from a pixel rectangle to texture coordinates. *)
Record Image : Type := mkImage {
  GetTexCoords : IntRect -> FloatRect
}.

(** Modelled from the spec: [sf::Font], as far as the text uses it: glyph
    lookup for a (code point, size, bold) key, kerning for a
    (previous, current, size) key, line spacing and glyph atlas for a size.
    Lookups are functions of their key; kerning and line spacing are
    [int]s, as the casts of Text.cpp show. *)
Record Font : Type := mkFont {
  GetGlyph : Uint32 -> Z -> bool -> Glyph;
  GetKerning : Uint32 -> Uint32 -> Z -> Z;
  GetLineSpacing : Z -> Z;
  GetImage : Z -> Image
}.

(** Modelled from the spec: the part of the base class [sf::Drawable] read
    by [Text::GetRect]: position, scale and origin. *)
Record Drawable : Type := mkDrawable {
  GetPosition : Vector2f;
  GetScale : Vector2f;
  GetOrigin : Vector2f
}.

Record Text : Type := mkText {
  base : Drawable;
  myString : String;
  myFont : option FontPtr;
  myCharacterSize : Z;
  myStyle : Z;
  myRectUpdated : bool;
  myBaseRect : FloatRect
}.

(** Commands received by the renderer: [SetTexture], [Begin],
    [AddVertex] and [End]. *)
Inductive RenderCmd : Type :=
| Cmd_SetTexture (image : Image)
| Cmd_Begin (type : PrimitiveType)
| Cmd_AddVertex (px py u v : F)
| Cmd_End.

(** The font store and the address of [Font::GetDefaultFont()]. *)
Class FontStore : Type := {
  font_at : FontPtr -> Font;
  defaultFont : FontPtr
}.

Context {FS : FontStore}.

(** [0] and [0.f] in float context. *)
Definition fzero : F := of_int 0.

(** Modelled from the spec: a default constructed [FloatRect] (the cache
    is created empty; Rect.inl is not among the sources).  Also
    [FloatRect(0, 0, 0, 0)]. *)
Definition Rect_zero : FloatRect := mkRect fzero fzero fzero fzero.

(** Modelled from the spec: a default constructed [Vector2f] (the cursor
    starts at (0, 0); Vector2.inl is not among the sources).  Also
    [Vector2f(0, 0)]. *)
Definition Vector2f_zero : Vector2f := mkVector2f fzero fzero.

(** *** Constructors (lines 38-58) *)

Definition SetString (string : String) (t : Text) : Text :=
  mkText (base t) string (myFont t) (myCharacterSize t) (myStyle t)
         false (myBaseRect t).

(** [Text::Text()]; [d] is the state built by [Drawable]'s constructor. *)
Definition Text_default (d : Drawable) : Text :=
  mkText d [] (Some defaultFont) 30 Regular true Rect_zero.

(** [Text::Text(string, font, characterSize)]; [font] is a reference. *)
Definition Text_make (d : Drawable) (string : String) (font : FontPtr)
    (characterSize : Z) : Text :=
  SetString string (mkText d [] (Some font) characterSize Regular true Rect_zero).

(** *** Mutators (lines 64-108) *)

Definition SetFont (font : FontPtr) (t : Text) : Text :=
  if match myFont t with
     | Some p => negb (Pos.eqb p font)
     | None => true
     end
  then mkText (base t) (myString t) (Some font) (myCharacterSize t) (myStyle t)
              false (myBaseRect t)
  else t.

Definition SetCharacterSize (size : Z) (t : Text) : Text :=
  if negb (myCharacterSize t =? size)
  then mkText (base t) (myString t) (myFont t) size (myStyle t)
              false (myBaseRect t)
  else t.

Definition SetStyle (style : Z) (t : Text) : Text :=
  if negb (myStyle t =? style)
  then mkText (base t) (myString t) (myFont t) (myCharacterSize t) style
              false (myBaseRect t)
  else t.

(** *** Accessors (lines 114-144) *)

Definition GetString (t : Text) : String := myString t.
Definition GetFont (t : Text) : option Font := option_map font_at (myFont t).
Definition GetCharacterSize (t : Text) : Z := myCharacterSize t.
Definition GetStyle (t : Text) : Z := myStyle t.

(** [(myStyle & bit) != 0]. *)
Definition has_style (style bit : Z) : bool := negb (Z.land style bit =? 0).

(** *** Special characters: [L' '], [L'\t'], [L'\v'], [L'\n'] *)

Definition ch_space : Uint32 := 32.
Definition ch_tab : Uint32 := 9.
Definition ch_vtab : Uint32 := 11.
Definition ch_newline : Uint32 := 10.

(** *** [Text::GetCharacterPos] (lines 152-192) *)

(** Loop state: [position] and [prevChar]. *)
Definition PosState : Type := (Vector2f * Uint32)%type.

(** One iteration of the loop of lines 170-189. *)
Definition GetCharacterPos_step (font : Font) (size : Z) (bold : bool)
    (space lineSpacing : F) (st : PosState) (curChar : Uint32) : PosState :=
  let '(position, prevChar) := st in
  (* Apply the kerning offset *)
  let position :=
    mkVector2f (fadd (x position) (of_int (GetKerning font prevChar curChar size)))
               (y position) in
  let prevChar := curChar in
  (* Handle special characters *)
  if curChar =? ch_space then
    (mkVector2f (fadd (x position) space) (y position), prevChar)
  else if curChar =? ch_tab then
    (mkVector2f (fadd (x position) (fmul space (of_int 4))) (y position), prevChar)
  else if curChar =? ch_vtab then
    (mkVector2f (x position) (fadd (y position) (fmul lineSpacing (of_int 4))), prevChar)
  else if curChar =? ch_newline then
    (mkVector2f fzero (fadd (y position) lineSpacing), prevChar)
  else
    (* For regular characters, add the advance offset of the glyph *)
    (mkVector2f (fadd (x position)
                      (of_int (Advance (GetGlyph font curChar size bold))))
                (y position), prevChar).

Definition GetCharacterPos (index : nat) (t : Text) : Vector2f :=
  match myFont t with
  | None => Vector2f_zero
  | Some p =>
      let font := font_at p in
      (* Adjust the index if it's out of range *)
      let index :=
        if (length (myString t) <? index)%nat then length (myString t) else index in
      let bold := has_style (myStyle t) Bold in
      let space :=
        of_int (Advance (GetGlyph font ch_space (myCharacterSize t) bold)) in
      let lineSpacing := of_int (GetLineSpacing font (myCharacterSize t)) in
      fst (fold_left
             (GetCharacterPos_step font (myCharacterSize t) bold space lineSpacing)
             (firstn index (myString t))
             (Vector2f_zero, 0))
  end.

(** *** [Text::UpdateRect] (lines 312-408) *)

(** Loop state of lines 330-334. *)
Record RectState : Type := mkRectState {
  curWidth : F;
  curHeight : F;
  width : F;
  height : F;
  rs_prevChar : Uint32
}.

(** One iteration of the loop of lines 337-380. *)
Definition UpdateRect_step (font : Font) (size : Z) (bold : bool)
    (charSize space lineSpacing : F) (st : RectState) (curChar : Uint32)
    : RectState :=
  (* Apply the kerning offset *)
  let curWidth' :=
    fadd (curWidth st) (of_int (GetKerning font (rs_prevChar st) curChar size)) in
  let prevChar := curChar in
  if curChar =? ch_space then
    mkRectState (fadd curWidth' space) (curHeight st) (width st) (height st) prevChar
  else if curChar =? ch_tab then
    mkRectState (fadd curWidth' (fmul space (of_int 4))) (curHeight st)
                (width st) (height st) prevChar
  else if curChar =? ch_vtab then
    mkRectState curWidth' fzero (width st)
                (fadd (height st) (fmul lineSpacing (of_int 4))) prevChar
  else if curChar =? ch_newline then
    mkRectState fzero fzero
                (if flt (width st) curWidth' then curWidth' else width st)
                (fadd (height st) lineSpacing) prevChar
  else
    (* Extract the current glyph's description *)
    let curGlyph := GetGlyph font curChar size bold in
    (* Update the maximum height *)
    let charHeight := fadd charSize (of_int (Bottom (Rectangle curGlyph))) in
    mkRectState (fadd curWidth' (of_int (Advance curGlyph)))
                (if flt (curHeight st) charHeight then charHeight else curHeight st)
                (width st) (height st) prevChar.

(** The loop of lines 337-380 from the initial values of lines 330-334. *)
Definition UpdateRect_walk (font : Font) (size : Z) (bold : bool) (s : String)
    : RectState :=
  fold_left
    (UpdateRect_step font size bold (of_int size)
       (of_int (Advance (GetGlyph font ch_space size bold)))
       (of_int (GetLineSpacing font size)))
    s (mkRectState fzero fzero fzero fzero 0).

(** Lines 383-385: the last line is committed. *)
Definition lastLine_width (st : RectState) : F :=
  if flt (width st) (curWidth st) then curWidth st else width st.

Definition lastLine_height (st : RectState) : F :=
  fadd (height st) (curHeight st).

(** Lines 388-391. *)
Definition italicAdjust (style size : Z) (w : F) : F :=
  if has_style style Italic then fadd w (fmul lit_0_208 (of_int size)) else w.

Definition underlineOffset (size : Z) : F := fmul (of_int size) lit_0_1.

Definition underlineThickness (size : Z) (bold : bool) : F :=
  fmul (of_int size) (if bold then lit_0_1 else lit_0_07).

(** Line 399: the right-hand side of the comparison. *)
Definition underlineThreshold (size : Z) (bold : bool) : F :=
  fadd (fadd (of_int size) (underlineOffset size)) (underlineThickness size bold).

(** Lines 394-401. *)
Definition underlineAdjust (style size : Z) (bold : bool) (curH h : F) : F :=
  if has_style style Underlined then
    if flt curH (underlineThreshold size bold)
    then fadd h (fadd (underlineOffset size) (underlineThickness size bold))
    else h
  else h.

(** The rectangle stored by a recomputation: lines 319-407. *)
Definition computeRect (t : Text) : FloatRect :=
  match myFont t with
  | None => Rect_zero
  | Some p =>
      match myString t with
      | [] => Rect_zero
      | _ :: _ =>
          let font := font_at p in
          let bold := has_style (myStyle t) Bold in
          let st := UpdateRect_walk font (myCharacterSize t) bold (myString t) in
          mkRect fzero fzero
            (italicAdjust (myStyle t) (myCharacterSize t) (lastLine_width st))
            (underlineAdjust (myStyle t) (myCharacterSize t) bold
               (curHeight st) (lastLine_height st))
      end
  end.

Definition UpdateRect (t : Text) : Text :=
  if myRectUpdated t then t
  else mkText (base t) (myString t) (myFont t) (myCharacterSize t) (myStyle t)
              true (computeRect t).

(** *** [Text::GetRect] (lines 198-209) *)

(** The bounding box in local coordinates: line 200 and the reads of
    [myBaseRect] that follow it. *)
Definition localBounds (t : Text) : FloatRect * Text :=
  let t' := UpdateRect t in (myBaseRect t', t').

Definition GetRect (t : Text) : FloatRect * Text :=
  let t' := UpdateRect t in
  let d := base t' in
  (mkRect
     (fadd (fmul (fsub (Left (myBaseRect t')) (x (GetOrigin d))) (x (GetScale d)))
           (x (GetPosition d)))
     (fadd (fmul (fsub (Top (myBaseRect t')) (y (GetOrigin d))) (y (GetScale d)))
           (y (GetPosition d)))
     (fadd (fmul (fsub (Right (myBaseRect t')) (x (GetOrigin d))) (x (GetScale d)))
           (x (GetPosition d)))
     (fadd (fmul (fsub (Bottom (myBaseRect t')) (y (GetOrigin d))) (y (GetScale d)))
           (y (GetPosition d))),
   t').

(** *** [Text::Render] (lines 215-306) *)

(** The four vertices of an underline between [Begin] and [End]
    (lines 255-263 and 296-304). *)
Definition underlineQuad (px py : F) (size : Z) (bold : bool)
    (underlineCoords : FloatRect) : list RenderCmd :=
  let top := fadd py (underlineOffset size) in
  let bottom := fadd top (underlineThickness size bold) in
  [ Cmd_Begin QuadList;
    Cmd_AddVertex fzero top (Left underlineCoords) (Top underlineCoords);
    Cmd_AddVertex px top (Right underlineCoords) (Top underlineCoords);
    Cmd_AddVertex px bottom (Right underlineCoords) (Bottom underlineCoords);
    Cmd_AddVertex fzero bottom (Left underlineCoords) (Bottom underlineCoords);
    Cmd_End ].

(** The textured quad of a glyph (lines 276-287). *)
Definition glyphQuad (px py italicCoeff : F) (curGlyph : Glyph) : list RenderCmd :=
  let rect := Rectangle curGlyph in
  let coord := TexCoords curGlyph in
  [ Cmd_Begin QuadList;
    Cmd_AddVertex
      (fsub (fadd px (of_int (Left rect))) (fmul italicCoeff (of_int (Top rect))))
      (fadd py (of_int (Top rect))) (Left coord) (Top coord);
    Cmd_AddVertex
      (fsub (fadd px (of_int (Right rect))) (fmul italicCoeff (of_int (Top rect))))
      (fadd py (of_int (Top rect))) (Right coord) (Top coord);
    Cmd_AddVertex
      (fsub (fadd px (of_int (Right rect))) (fmul italicCoeff (of_int (Bottom rect))))
      (fadd py (of_int (Bottom rect))) (Right coord) (Bottom coord);
    Cmd_AddVertex
      (fsub (fadd px (of_int (Left rect))) (fmul italicCoeff (of_int (Bottom rect))))
      (fadd py (of_int (Bottom rect))) (Left coord) (Bottom coord);
    Cmd_End ].

(** Loop state: [x], [y], [prevChar] and the commands issued so far. *)
Record RenderState : Type := mkRenderState {
  r_x : F;
  r_y : F;
  r_prevChar : Uint32;
  r_out : list RenderCmd
}.

(** One iteration of the loop of lines 244-291. *)
Definition Render_step (font : Font) (size : Z) (bold underlined : bool)
    (italicCoeff space lineSpacing : F) (underlineCoords : FloatRect)
    (st : RenderState) (curChar : Uint32) : RenderState :=
  (* Apply the kerning offset *)
  let x' := fadd (r_x st) (of_int (GetKerning font (r_prevChar st) curChar size)) in
  let y' := r_y st in
  let prevChar := curChar in
  (* If we're using the underlined style and there's a new line, draw a line *)
  let out :=
    if underlined && (curChar =? ch_newline)
    then r_out st ++ underlineQuad x' y' size bold underlineCoords
    else r_out st in
  (* Handle special characters *)
  if curChar =? ch_space then
    mkRenderState (fadd x' space) y' prevChar out
  else if curChar =? ch_tab then
    mkRenderState (fadd x' (fmul space (of_int 4))) y' prevChar out
  else if curChar =? ch_newline then
    mkRenderState fzero (fadd y' lineSpacing) prevChar out
  else if curChar =? ch_vtab then
    mkRenderState x' (fadd y' (fmul lineSpacing (of_int 4))) prevChar out
  else
    (* Extract the current glyph's description *)
    let curGlyph := GetGlyph font curChar size bold in
    (* Draw a textured quad for the current character, then advance *)
    mkRenderState (fadd x' (of_int (Advance curGlyph))) y' prevChar
                  (out ++ glyphQuad x' y' italicCoeff curGlyph).

Definition Render (t : Text) : list RenderCmd :=
  match myFont t with
  | None => []
  | Some p =>
      match myString t with
      | [] => []
      | _ :: _ =>
          let font := font_at p in
          let size := myCharacterSize t in
          (* Computes values related to the text style *)
          let bold := has_style (myStyle t) Bold in
          let underlined := has_style (myStyle t) Underlined in
          let italicCoeff := if has_style (myStyle t) Italic then lit_0_208 else fzero in
          let underlineCoords := GetTexCoords (GetImage font size) (mkRect 1 1 1 1) in
          (* Initialize the rendering coordinates *)
          let space := of_int (Advance (GetGlyph font ch_space size bold)) in
          let lineSpacing := of_int (GetLineSpacing font size) in
          let st :=
            fold_left
              (Render_step font size bold underlined italicCoeff space lineSpacing
                 underlineCoords)
              (myString t)
              (* Bind the font texture; x = 0.f, y = characterSize *)
              (mkRenderState fzero (of_int size) 0 [Cmd_SetTexture (GetImage font size)]) in
          (* If we're using the underlined style, add the last line *)
          if underlined
          then r_out st ++ underlineQuad (r_x st) (r_y st) size bold underlineCoords
          else r_out st
      end
  end.

(** A list of commands that is one glyph quad. *)
Definition is_glyphQuad (q : list RenderCmd) : Prop :=
  exists px py k g, q = glyphQuad px py k g.

(** Number of quads submitted: one per [Begin] ... [End] pair. *)
Fixpoint quadCount (cmds : list RenderCmd) : nat :=
  match cmds with
  | [] => 0%nat
  | Cmd_Begin QuadList :: rest => S (quadCount rest)
  | _ :: rest => quadCount rest
  end.

(** Number of vertices submitted. *)
Fixpoint vertexCount (cmds : list RenderCmd) : nat :=
  match cmds with
  | [] => 0%nat
  | Cmd_AddVertex _ _ _ _ :: rest => S (vertexCount rest)
  | _ :: rest => vertexCount rest
  end.

(** *** The public operations as a transition system *)

Inductive Op : Type :=
| Op_SetString (string : String)
| Op_SetFont (font : FontPtr)
| Op_SetCharacterSize (size : Z)
| Op_SetStyle (style : Z)
| Op_GetCharacterPos (index : nat)
| Op_GetRect
| Op_Render
| Op_Drawable (d : Drawable).     (* any mutator inherited from Drawable *)

(** The object after an operation. *)
Definition run (op : Op) (t : Text) : Text :=
  match op with
  | Op_SetString s => SetString s t
  | Op_SetFont p => SetFont p t
  | Op_SetCharacterSize n => SetCharacterSize n t
  | Op_SetStyle st => SetStyle st t
  | Op_GetCharacterPos _ => t
  | Op_GetRect => snd (GetRect t)
  | Op_Render => t
  | Op_Drawable d =>
      mkText d (myString t) (myFont t) (myCharacterSize t) (myStyle t)
             (myRectUpdated t) (myBaseRect t)
  end.

Inductive reachable : Text -> Prop :=
| reach_default : forall d, reachable (Text_default d)
| reach_make : forall d s p n, reachable (Text_make d s p n)
| reach_run : forall op t, reachable t -> reachable (run op t).

(** The cache invariant: a valid cache holds what a recomputation from
    the current fields would store. *)
Definition cache_coherent (t : Text) : Prop :=
  myRectUpdated t = true -> myBaseRect t = computeRect t.

(** [curChar] takes none of the four special branches. *)
Definition regular (c : Uint32) : Prop :=
  c <> ch_space /\ c <> ch_tab /\ c <> ch_vtab /\ c <> ch_newline.

(** The transform of one coordinate in [GetRect]. *)
Definition toWorld (origin scale position local : F) : F :=
  fadd (fmul (fsub local origin) scale) position.

End Model.

Arguments FloatRect : clear implicits.
Arguments Vector2f : clear implicits.
Arguments Glyph : clear implicits.
Arguments Image : clear implicits.
Arguments Font : clear implicits.
Arguments FontStore : clear implicits.
Arguments Drawable : clear implicits.
Arguments Text : clear implicits.
Arguments RenderCmd : clear implicits.
Arguments PosState : clear implicits.
Arguments RectState : clear implicits.
Arguments RenderState : clear implicits.
Arguments Op : clear implicits.

(** ** The walks, named *)

Section Walks.

Context {F : Type} {FA : FloatArith F} {FS : FontStore F}.

(** [prevChar] when the loop reaches index [i]: the character before it,
    0 at the start of the string. *)
Definition prevCharAt (s : String) (i : nat) : Uint32 :=
  match i with
  | O => 0
  | S j => nth j s 0
  end.

(** The characters handled by the [switch] of the three loops. *)
Definition is_special (c : Uint32) : bool :=
  (c =? ch_space) || (c =? ch_tab) || (c =? ch_vtab) || (c =? ch_newline).

(** The loop of [Text::Render] (lines 244-291) from its initial state
    (lines 222, 235, 236, 243). *)
Definition Render_walk (font : Font F) (size style : Z) (s : String) : RenderState F :=
  fold_left
    (Render_step font size (has_style style Bold) (has_style style Underlined)
       (if has_style style Italic then lit_0_208 else fzero)
       (of_int (Advance (GetGlyph font ch_space size (has_style style Bold))))
       (of_int (GetLineSpacing font size))
       (GetTexCoords (GetImage font size) (mkRect 1 1 1 1)))
    s (mkRenderState fzero (of_int size) 0 [Cmd_SetTexture (GetImage font size)]).

(** The loop of [Text::GetCharacterPos] (lines 170-189) over a whole
    string from its initial state. *)
Definition GetCharacterPos_walk (font : Font F) (size style : Z) (s : String)
    : PosState F :=
  fold_left
    (GetCharacterPos_step font size (has_style style Bold)
       (of_int (Advance (GetGlyph font ch_space size (has_style style Bold))))
       (of_int (GetLineSpacing font size)))
    s (Vector2f_zero, 0).

(** A list of commands that is one underline quad. *)
Definition is_underlineQuad (q : list (RenderCmd F)) : Prop :=
  exists px py size bold coords, q = underlineQuad px py size bold coords.

(** Number of characters that get a glyph, and number of line feeds. *)
Definition regularCount (s : String) : nat :=
  length (filter (fun c => negb (is_special c)) s).

Definition newlineCount (s : String) : nat :=
  length (filter (fun c => c =? ch_newline) s).

(** The quads one loop iteration of [Text::Render] issues for character
    [c] with the cursor at [(px, py)], kerning already added. *)
Definition quadsOf (font : Font F) (size style : Z) (px py : F) (c : Uint32)
    : list (list (RenderCmd F)) :=
  (if has_style style Underlined && (c =? ch_newline)
   then [underlineQuad px py size (has_style style Bold)
           (GetTexCoords (GetImage font size) (mkRect 1 1 1 1))]
   else []) ++
  (if is_special c then []
   else [glyphQuad px py (if has_style style Italic then lit_0_208 else fzero)
           (GetGlyph font c size (has_style style Bold))]).

(** The glyph quad of character [i] of a one-line text, placed from the
    character position of [i]: empty for a space or a tab. *)
Definition glyphQuadAt (t : Text F) (p : FontPtr) (i : nat) : list (RenderCmd F) :=
  let c := nth i (myString t) 0 in
  let size := myCharacterSize t in
  if is_special c then []
  else glyphQuad
         (fadd (x (GetCharacterPos i t))
               (of_int (GetKerning (font_at p) (prevCharAt (myString t) i) c size)))
         (of_int size)
         (if has_style (myStyle t) Italic then lit_0_208 else fzero)
         (GetGlyph (font_at p) c size (has_style (myStyle t) Bold)).

(** ** The bounding box as section 4.2 of the specification words it *)

(** "add the shortfall to [height]": the amount by which the last line's
    [curHeight] falls short of
    [characterSize + underlineOffset + underlineThickness]. *)
Definition shortfall (size : Z) (bold : bool) (curH : F) : F :=
  fsub (underlineThreshold size bold) curH.

(** The amount line 400 of the code adds instead, whatever [curHeight]. *)
Definition underlineAllowance (size : Z) (bold : bool) (curH : F) : F :=
  fadd (underlineOffset size) (underlineThickness size bold).

(** The computation of section 4.2, bullet by bullet; [extra] is the
    amount the underline adjustment adds to the height. *)
Definition boundingBox_4_2 (extra : Z -> bool -> F -> F) (t : Text F)
    : FloatRect F :=
  match myFont t, myString t with
  (* Empty string or absent font: rect is (0,0,0,0) *)
  | None, _ => Rect_zero
  | Some _, [] => Rect_zero
  | Some p, _ :: _ =>
      let size := myCharacterSize t in
      let bold := has_style (myStyle t) Bold in
      (* Track curWidth/curHeight per line and width/height totals *)
      let st := UpdateRect_walk (font_at p) size bold (myString t) in
      (* After the walk: commit final curWidth into width if larger;
         height += curHeight *)
      let w := if flt (width st) (curWidth st) then curWidth st else width st in
      let h := fadd (height st) (curHeight st) in
      (* Italic adjustment: width += 0.208 * characterSize *)
      let w := if has_style (myStyle t) Italic
               then fadd w (fmul lit_0_208 (of_int size)) else w in
      (* Underline adjustment *)
      let h := if has_style (myStyle t) Underlined
               then if flt (curHeight st)
                           (fadd (fadd (of_int size) (fmul (of_int size) lit_0_1))
                                 (fmul (of_int size)
                                       (if bold then lit_0_1 else lit_0_07)))
                    then fadd h (extra size bold (curHeight st))
                    else h
               else h in
      (* Final rect is (0, 0, width, height) *)
      mkRect fzero fzero w h
  end.

(** Section 4.2 as written: the underline adjustment adds the shortfall. *)
Definition spec_computeBoundingBox (t : Text F) : FloatRect F :=
  boundingBox_4_2 shortfall t.

End Walks.

(** ** A concrete font store over binary32 *)

Module Sample.
Definition coords : FloatRect B32.float :=
  mkRect (of_int 0) (of_int 0) (of_int 1) (of_int 1).

Definition image : Image B32.float := mkImage (fun _ => coords).

(** Space advances by 8; every other glyph advances by 15 and reaches
    from 14 above the baseline to 2 below it. *)
Definition glyph (c : Uint32) : Glyph B32.float :=
  mkGlyph (if c =? ch_space then 8 else 15) (mkRect 1 (-14) 14 2) coords.

Definition font : Font B32.float :=
  mkFont (fun c _ _ => glyph c) (fun _ _ _ => 0) (fun size => size + 4)
         (fun _ => image).

#[export] Instance store : FontStore B32.float :=
  {| font_at := fun _ => font; defaultFont := 1%positive |}.

Definition drawable : Drawable B32.float :=
  mkDrawable (mkVector2f (of_int 0) (of_int 0))
             (mkVector2f (of_int 1) (of_int 1))
             (mkVector2f (of_int 0) (of_int 0)).

(** The one-character text "g", size 30, underlined. *)
Definition underlined_g : Text B32.float :=
  SetStyle Underlined (Text_make drawable [103] 1%positive 30).

(** The text "ab", size 30, regular. *)
Definition text_ab : Text B32.float := Text_make drawable [97; 98] 1%positive 30.

(** The text "abc", size 30, underlined and italic. *)
Definition underlined_abc : Text B32.float :=
  SetStyle (Underlined + Italic) (Text_make drawable [97; 98; 99] 1%positive 30).

(** The text "a b\tc", size 30. *)
Definition text_mixed : Text B32.float :=
  Text_make drawable [97; 32; 98; 9; 99] 1%positive 30.

(** The texts "\t" and "    " (four spaces), size 30. *)
Definition text_tab : Text B32.float := Text_make drawable [ch_tab] 1%positive 30.

Definition text_spaces : Text B32.float :=
  Text_make drawable [ch_space; ch_space; ch_space; ch_space] 1%positive 30.

(** The text "ab\ncd", size 30. *)
Definition text_lines : Text B32.float :=
  Text_make drawable [97; 98; ch_newline; 99; 100] 1%positive 30.

(** A text object whose font pointer is null. *)
Definition text_nofont : Text B32.float :=
  mkText drawable [97; 98] None 30 Regular false Rect_zero.
End Sample.

(** * Properties that hold for every interpretation of [float] *)

Section Generic.

Context {F : Type} {FA : FloatArith F} {FS : FontStore F}.

(** ** The mutators and the valid flag *)

Lemma SetFont_same (t : Text F) (p : FontPtr) :
  myFont t = Some p -> SetFont p t = t.
Proof.
  intros Hp. unfold SetFont. rewrite Hp, Pos.eqb_refl. reflexivity.
Qed.

Lemma SetFont_other (t : Text F) (p : FontPtr) :
  myFont t <> Some p ->
  myRectUpdated (SetFont p t) = false /\ myFont (SetFont p t) = Some p /\
  myBaseRect (SetFont p t) = myBaseRect t.
Proof.
  intros Hp. unfold SetFont.
  destruct (myFont t) as [q|] eqn:Hq.
  - destruct (Pos.eqb_spec q p) as [->|Hne]; [congruence|].
    cbn. auto.
  - cbn. auto.
Qed.

Lemma SetCharacterSize_same (t : Text F) :
  SetCharacterSize (myCharacterSize t) t = t.
Proof. unfold SetCharacterSize. rewrite Z.eqb_refl. reflexivity. Qed.

Lemma SetCharacterSize_other (t : Text F) (size : Z) :
  myCharacterSize t <> size ->
  myRectUpdated (SetCharacterSize size t) = false /\
  myCharacterSize (SetCharacterSize size t) = size /\
  myBaseRect (SetCharacterSize size t) = myBaseRect t.
Proof.
  intros Hne. unfold SetCharacterSize.
  destruct (Z.eqb_spec (myCharacterSize t) size); [contradiction|]. cbn. auto.
Qed.

Lemma SetStyle_same (t : Text F) : SetStyle (myStyle t) t = t.
Proof. unfold SetStyle. rewrite Z.eqb_refl. reflexivity. Qed.

Lemma SetStyle_other (t : Text F) (style : Z) :
  myStyle t <> style ->
  myRectUpdated (SetStyle style t) = false /\
  myStyle (SetStyle style t) = style /\
  myBaseRect (SetStyle style t) = myBaseRect t.
Proof.
  intros Hne. unfold SetStyle.
  destruct (Z.eqb_spec (myStyle t) style); [contradiction|]. cbn. auto.
Qed.

(** ** The cache *)

Lemma computeRect_ext (t u : Text F) :
  myString t = myString u -> myFont t = myFont u ->
  myCharacterSize t = myCharacterSize u -> myStyle t = myStyle u ->
  computeRect t = computeRect u.
Proof.
  intros Hs Hf Hn Hy. unfold computeRect. rewrite Hs, Hf, Hn, Hy. reflexivity.
Qed.

Lemma UpdateRect_valid (t : Text F) : myRectUpdated (UpdateRect t) = true.
Proof.
  unfold UpdateRect. destruct (myRectUpdated t) eqn:E; [exact E|reflexivity].
Qed.

Lemma UpdateRect_fixed (t : Text F) : myRectUpdated t = true -> UpdateRect t = t.
Proof. intros E. unfold UpdateRect. rewrite E. reflexivity. Qed.

Lemma UpdateRect_stale (t : Text F) :
  myRectUpdated t = false -> myBaseRect (UpdateRect t) = computeRect t.
Proof. intros E. unfold UpdateRect. rewrite E. reflexivity. Qed.

Lemma UpdateRect_fields (t : Text F) :
  myString (UpdateRect t) = myString t /\ myFont (UpdateRect t) = myFont t /\
  myCharacterSize (UpdateRect t) = myCharacterSize t /\
  myStyle (UpdateRect t) = myStyle t /\ base (UpdateRect t) = base t.
Proof. unfold UpdateRect. destruct (myRectUpdated t); cbn; auto. Qed.

Lemma UpdateRect_coherent (t : Text F) :
  cache_coherent t -> myBaseRect (UpdateRect t) = computeRect t.
Proof.
  intros Hc. destruct (myRectUpdated t) eqn:E.
  - rewrite UpdateRect_fixed by exact E. apply Hc, E.
  - apply UpdateRect_stale, E.
Qed.

(** C1. [SetString] marks the cache stale whatever it is given: after a
    bounding box query has made the cache valid, storing the very string
    the text already holds clears the valid flag, while the three other
    mutators leave the object untouched when given the current value. *)
Theorem SetString_identical_value_invalidates (t : Text F) :
  let t1 := UpdateRect t in
  myRectUpdated t1 = true /\
  myString (SetString (myString t1) t1) = myString t1 /\
  myRectUpdated (SetString (myString t1) t1) = false /\
  SetCharacterSize (myCharacterSize t1) t1 = t1 /\
  SetStyle (myStyle t1) t1 = t1 /\
  (forall p, myFont t1 = Some p -> SetFont p t1 = t1).
Proof.
  cbn zeta. repeat split.
  - apply UpdateRect_valid.
  - apply SetCharacterSize_same.
  - apply SetStyle_same.
  - intros p Hp. apply SetFont_same, Hp.
Qed.

(** C4. Two bounding box queries in a row return the same rectangle: the
    first leaves the cache valid and holding its result (computed from the
    fields if the cache was stale), the second takes the early return of
    [UpdateRect] and leaves the object as it is. *)
Theorem localBounds_twice (t : Text F) :
  let '(r1, t1) := localBounds t in
  let '(r2, t2) := localBounds t1 in
  r1 = r2 /\
  myRectUpdated t1 = true /\ myBaseRect t1 = r1 /\
  (myRectUpdated t = false -> r1 = computeRect t) /\
  UpdateRect t1 = t1 /\ t2 = t1 /\
  fst (GetRect t1) = fst (GetRect t).
Proof.
  unfold localBounds, GetRect.
  pose proof (UpdateRect_valid t) as Hv.
  pose proof (UpdateRect_fixed _ Hv) as Hfix.
  rewrite Hfix. cbn [fst].
  repeat split; auto.
  apply UpdateRect_stale.
Qed.

(** C9. [GetRect] maps each side of the local bounding box on its own:
    left and right through the x components of origin, scale and position,
    top and bottom through the y components. *)
Theorem GetRect_per_side (t : Text F) :
  let local := fst (localBounds t) in
  let d := base t in
  let world := fst (GetRect t) in
  Left world = toWorld (x (GetOrigin d)) (x (GetScale d)) (x (GetPosition d)) (Left local) /\
  Right world = toWorld (x (GetOrigin d)) (x (GetScale d)) (x (GetPosition d)) (Right local) /\
  Top world = toWorld (y (GetOrigin d)) (y (GetScale d)) (y (GetPosition d)) (Top local) /\
  Bottom world = toWorld (y (GetOrigin d)) (y (GetScale d)) (y (GetPosition d)) (Bottom local) /\
  (forall origin scale position l,
      toWorld origin scale position l = fadd (fmul (fsub l origin) scale) position).
Proof.
  cbn zeta. unfold GetRect, localBounds, toWorld. cbn [fst Left Right Top Bottom].
  destruct (UpdateRect_fields t) as (_ & _ & _ & _ & ->).
  repeat split.
Qed.

(** ** Empty text *)

Lemma computeRect_empty (t : Text F) :
  myString t = [] \/ myFont t = None -> computeRect t = Rect_zero.
Proof.
  unfold computeRect. intros [-> | ->]; [destruct (myFont t)|]; reflexivity.
Qed.

Lemma Render_empty (t : Text F) :
  myString t = [] \/ myFont t = None -> Render t = [].
Proof.
  unfold Render. intros [-> | ->]; [destruct (myFont t)|]; reflexivity.
Qed.

(** C3. With an empty string or without a font, a recomputation stores the
    rectangle (0,0,0,0), a bounding box query on an object with a stale or
    coherent cache returns it, and [Render] issues no command at all: no
    quad, no vertex. *)
Theorem empty_text_bounds_and_render (t : Text F) :
  myString t = [] \/ myFont t = None ->
  computeRect t = Rect_zero /\
  (cache_coherent t -> fst (localBounds t) = Rect_zero) /\
  Render t = [] /\ quadCount (Render t) = 0%nat /\ vertexCount (Render t) = 0%nat.
Proof.
  intros He.
  pose proof (computeRect_empty t He) as Hc.
  pose proof (Render_empty t He) as Hr.
  rewrite Hr. repeat split; auto.
  intros Hcoh. unfold localBounds. cbn [fst].
  rewrite UpdateRect_coherent by exact Hcoh. exact Hc.
Qed.

(** ** Character positions *)

(** C6. An index past the end of the string gives the position of the end
    of the string, and without a font every index gives (0,0). *)
Theorem GetCharacterPos_clamped (t : Text F) (index : nat) :
  ((length (myString t) < index)%nat ->
   GetCharacterPos index t = GetCharacterPos (length (myString t)) t) /\
  (myFont t = None -> GetCharacterPos index t = Vector2f_zero).
Proof.
  unfold GetCharacterPos. split.
  - intros Hlt. destruct (myFont t); [|reflexivity].
    apply Nat.ltb_lt in Hlt. rewrite Hlt, Nat.ltb_irrefl. reflexivity.
  - intros ->. reflexivity.
Qed.

(** ** The cache invariant *)

Lemma cache_coherent_run (op : Op F) (t : Text F) :
  cache_coherent t -> cache_coherent (run op t).
Proof.
  intros Hc. destruct op as [s|p|n|st|i| | |d]; cbn [run].
  - intros E. discriminate E.
  - unfold SetFont. destruct (match myFont t with Some q => _ | None => _ end);
      [intros E; discriminate E | exact Hc].
  - unfold SetCharacterSize. destruct (negb _); [intros E; discriminate E | exact Hc].
  - unfold SetStyle. destruct (negb _); [intros E; discriminate E | exact Hc].
  - exact Hc.
  - unfold GetRect. cbn [snd]. intros _.
    rewrite UpdateRect_coherent by exact Hc.
    destruct (UpdateRect_fields t) as (Hs & Hf & Hn & Hy & _).
    symmetry. apply computeRect_ext; assumption.
  - exact Hc.
  - intros E. cbn in E |- *. rewrite (Hc E). apply computeRect_ext; reflexivity.
Qed.

Lemma computeRect_4_2 (t : Text F) :
  computeRect t = boundingBox_4_2 underlineAllowance t.
Proof.
  unfold computeRect, boundingBox_4_2.
  destruct (myFont t) as [p|]; [|reflexivity].
  destruct (myString t) as [|c s]; reflexivity.
Qed.

Lemma computeRect_not_underlined (t : Text F) :
  has_style (myStyle t) Underlined = false ->
  computeRect t = spec_computeBoundingBox t.
Proof.
  intros Hu. rewrite computeRect_4_2.
  unfold spec_computeBoundingBox, boundingBox_4_2. rewrite Hu. reflexivity.
Qed.

(** C10. In every state reached from a constructor through the public
    operations, a cache marked valid holds exactly the rectangle the
    recomputation of [UpdateRect] yields from the current string, font,
    size and style, and every operation keeps it so.  That rectangle is
    the computation of section 4.2 with the underline adjustment adding
    underlineOffset + underlineThickness in place of the shortfall; for a
    text that is not underlined it is the value of section 4.2 as
    written. *)
Theorem reachable_cache_coherent (t : Text F) :
  reachable t ->
  cache_coherent t /\
  (forall op, cache_coherent (run op t)) /\
  (myRectUpdated t = true ->
   myBaseRect t = boundingBox_4_2 underlineAllowance t) /\
  (myRectUpdated t = true -> has_style (myStyle t) Underlined = false ->
   myBaseRect t = spec_computeBoundingBox t).
Proof.
  intros Hr.
  assert (Hc : cache_coherent t).
  { induction Hr as [d | d s p n | op t Hr IH].
    - intros _. reflexivity.
    - intros E. discriminate E.
    - apply cache_coherent_run, IH. }
  split; [exact Hc|]. split; [|split].
  - intros op. apply cache_coherent_run, Hc.
  - intros E. rewrite (Hc E). apply computeRect_4_2.
  - intros E Hu. rewrite (Hc E). apply computeRect_not_underlined, Hu.
Qed.

Lemma reachable_has_font (t : Text F) :
  reachable t -> exists p, myFont t = Some p.
Proof.
  induction 1 as [d | d s p n | op t Hr [q Hq]].
  - eexists; reflexivity.
  - eexists; reflexivity.
  - destruct op as [s|p|n|st|i| | |d]; cbn [run]; try (exists q; exact Hq).
    + unfold SetFont. rewrite Hq. destruct (negb _); cbn; eauto.
    + unfold SetCharacterSize. destruct (negb _); cbn; eauto.
    + unfold SetStyle. destruct (negb _); cbn; eauto.
    + unfold GetRect. cbn [snd]. destruct (UpdateRect_fields t) as (_ & -> & _). eauto.
Qed.

(** ** The underline adjustment of the bounding box *)

(** C2 (as the code has it). For a text with a font and a non-empty string,
    the bottom of the recomputed rectangle is the height accumulated by the
    walk with the last line committed, plus
    [underlineOffset + underlineThickness] when the Underlined bit is set
    and the last line's [curHeight] is less than
    [characterSize + underlineOffset + underlineThickness]; otherwise it is
    that height unchanged. *)
Theorem underline_adjustment (t : Text F) (p : FontPtr) :
  myFont t = Some p -> myString t <> [] ->
  let size := myCharacterSize t in
  let bold := has_style (myStyle t) Bold in
  let st := UpdateRect_walk (font_at p) size bold (myString t) in
  let offset := fmul (of_int size) lit_0_1 in
  let thickness := fmul (of_int size) (if bold then lit_0_1 else lit_0_07) in
  let h := fadd (height st) (curHeight st) in
  Bottom (computeRect t) =
    if has_style (myStyle t) Underlined
       && flt (curHeight st) (fadd (fadd (of_int size) offset) thickness)
    then fadd h (fadd offset thickness)
    else h.
Proof.
  intros Hp Hs. cbn zeta. unfold computeRect. rewrite Hp.
  destruct (myString t) as [|c s] eqn:Es; [congruence|].
  cbn [Bottom]. unfold underlineAdjust, underlineThreshold, underlineOffset,
    underlineThickness, lastLine_height.
  destruct (has_style (myStyle t) Underlined); cbn [andb]; reflexivity.
Qed.

(** ** Quads issued by [Render] *)

Lemma quadCount_app (a b : list (RenderCmd F)) :
  quadCount (a ++ b) = (quadCount a + quadCount b)%nat.
Proof.
  induction a as [|c a IH]; [reflexivity|].
  destruct c as [image|[]|px py u v|]; cbn; rewrite IH; reflexivity.
Qed.

Lemma vertexCount_app (a b : list (RenderCmd F)) :
  vertexCount (a ++ b) = (vertexCount a + vertexCount b)%nat.
Proof.
  induction a as [|c a IH]; [reflexivity|].
  destruct c; cbn; rewrite IH; reflexivity.
Qed.

Lemma quadCount_glyphQuads (gs : list (list (RenderCmd F))) :
  Forall is_glyphQuad gs ->
  quadCount (concat gs) = length gs /\
  vertexCount (concat gs) = (4 * length gs)%nat.
Proof.
  induction 1 as [|q gs (px & py & k & g & ->) _ [IHq IHv]]; [split; reflexivity|].
  cbn [concat length]. rewrite quadCount_app, vertexCount_app, IHq, IHv.
  cbn. split; lia.
Qed.

Lemma regular_eqb (c : Uint32) :
  regular c ->
  (c =? ch_space) = false /\ (c =? ch_tab) = false /\
  (c =? ch_vtab) = false /\ (c =? ch_newline) = false.
Proof.
  intros (H1 & H2 & H3 & H4). repeat split; apply Z.eqb_neq; assumption.
Qed.

Lemma Render_step_regular font size bold underlined k space lineSpacing coords
    (st : RenderState F) (c : Uint32) :
  regular c ->
  Render_step font size bold underlined k space lineSpacing coords st c =
  let x' := fadd (r_x st) (of_int (GetKerning font (r_prevChar st) c size)) in
  let g := GetGlyph font c size bold in
  mkRenderState (fadd x' (of_int (Advance g))) (r_y st) c
                (r_out st ++ glyphQuad x' (r_y st) k g).
Proof.
  intros Hc. destruct (regular_eqb c Hc) as (E1 & E2 & E3 & E4).
  unfold Render_step. rewrite E1, E2, E3, E4, andb_false_r. reflexivity.
Qed.

Lemma Render_walk_regular font size bold underlined k space lineSpacing coords
    (s : String) :
  Forall regular s ->
  forall st : RenderState F,
  exists gs,
    length gs = length s /\ Forall is_glyphQuad gs /\
    r_out (fold_left (Render_step font size bold underlined k space lineSpacing coords)
                     s st) = r_out st ++ concat gs.
Proof.
  induction 1 as [|c s Hc Hs IH]; intros st.
  - exists []. cbn. rewrite app_nil_r. auto.
  - cbn [fold_left]. rewrite Render_step_regular by exact Hc. cbn zeta.
    match goal with |- context [fold_left _ s ?st1] => destruct (IH st1) as (gs & Hl & Hg & Ho) end.
    eexists (_ :: gs). rewrite Ho. cbn [r_out concat length].
    rewrite <- app_assoc. repeat split.
    + rewrite Hl. reflexivity.
    + constructor; [|exact Hg]. repeat eexists.
Qed.

Lemma Render_regular (t : Text F) (p : FontPtr) :
  myFont t = Some p -> myString t <> [] -> Forall regular (myString t) ->
  let size := myCharacterSize t in
  let bold := has_style (myStyle t) Bold in
  let underlined := has_style (myStyle t) Underlined in
  exists glyphQuads underline,
    Render t = Cmd_SetTexture (GetImage (font_at p) size) :: concat glyphQuads ++ underline /\
    length glyphQuads = length (myString t) /\
    Forall is_glyphQuad glyphQuads /\
    (if underlined
     then exists px py coords, underline = underlineQuad px py size bold coords
     else underline = []) /\
    quadCount (Render t) =
      (length (myString t) + if underlined then 1 else 0)%nat /\
    vertexCount (Render t) =
      (4 * (length (myString t) + if underlined then 1 else 0))%nat.
Proof.
  intros Hp Hne Hreg. cbn zeta. unfold Render. rewrite Hp.
  destruct (myString t) as [|c s] eqn:Es; [congruence|].
  match goal with
  | |- context [fold_left (Render_step ?fo ?sz ?b ?u ?k ?sp ?ls ?co) (c :: s) ?st0] =>
    destruct (Render_walk_regular fo sz b u k sp ls co (c :: s) Hreg st0)
      as (gs & Hl & Hg & Ho);
    set (st := fold_left (Render_step fo sz b u k sp ls co) (c :: s) st0) in *
  end.
  cbn [r_out] in Ho.
  destruct (quadCount_glyphQuads gs Hg) as [Hq Hv].
  destruct (has_style (myStyle t) Underlined).
  - exists gs. eexists. rewrite Ho. cbn [app].
    repeat split; auto.
    + repeat eexists.
    + cbn [quadCount]. rewrite !quadCount_app, Hq, Hl. cbn. lia.
    + cbn [vertexCount]. rewrite !vertexCount_app, Hv, Hl. cbn. lia.
  - exists gs, []. rewrite Ho. cbn [app]. rewrite app_nil_r.
    repeat split; auto.
    + cbn [quadCount]. rewrite Hq, Hl. lia.
    + cbn [vertexCount]. rewrite Hv, Hl. lia.
Qed.

End Generic.

(** * Binary32 arithmetic *)

Lemma digits2_log2 (p : positive) : Zpos (digits2_pos p) = Z.log2 (Zpos p) + 1.
Proof.
  assert (H : forall q, digits2_pos q = Pos.size q)
    by (induction q as [q IH|q IH|]; cbn; rewrite ?IH; reflexivity).
  rewrite H. destruct p; cbn; lia.
Qed.

Lemma iter_pos_nat {A} (f : A -> A) (p : positive) (a : A) :
  iter_pos f p a = Nat.iter (Pos.to_nat p) f a.
Proof.
  revert a. induction p as [p IH|p IH|]; intros a; cbn [iter_pos].
  - rewrite !IH, Pos2Nat.inj_xI.
    replace (S (2 * Pos.to_nat p)) with (Pos.to_nat p + S (Pos.to_nat p))%nat by lia.
    rewrite Nat.iter_add, Nat.iter_succ_r. reflexivity.
  - rewrite !IH, Pos2Nat.inj_xO.
    replace (2 * Pos.to_nat p)%nat with (Pos.to_nat p + Pos.to_nat p)%nat by lia.
    rewrite Nat.iter_add. reflexivity.
  - reflexivity.
Qed.

Lemma shr_1_m (mrs : shr_record) :
  0 <= shr_m mrs ->
  shr_m (shr_1 mrs) = shr_m mrs / 2 /\
  shr_r (shr_1 mrs) = Z.odd (shr_m mrs) /\
  shr_s (shr_1 mrs) = shr_r mrs || shr_s mrs.
Proof.
  destruct mrs as [m r s]. cbn [shr_m shr_r shr_s]. intros Hm.
  destruct m as [|[p|p|]|p]; cbn [shr_1 shr_m shr_r shr_s]; try lia.
  - repeat split.
  - repeat split. rewrite Pos2Z.inj_xI. apply Z.div_unique with 1; lia.
  - repeat split. rewrite Pos2Z.inj_xO. apply Z.div_unique with 0; lia.
  - repeat split.
Qed.

Lemma mod_pow2_succ (m k : Z) :
  0 <= k -> m mod 2 ^ (k + 1) = m mod 2 ^ k + 2 ^ k * ((m / 2 ^ k) mod 2).
Proof.
  intros Hk. rewrite Z.pow_add_r by lia. change (2 ^ 1) with 2.
  apply Z.rem_mul_r; [|lia]. apply Z.pow_nonzero; lia.
Qed.

Lemma shr_iter (m : Z) (k : nat) :
  0 <= m ->
  shr_m (Nat.iter (S k) shr_1 (rec0 m)) = m / 2 ^ (Z.of_nat k + 1) /\
  shr_r (Nat.iter (S k) shr_1 (rec0 m)) = Z.odd (m / 2 ^ Z.of_nat k) /\
  shr_s (Nat.iter (S k) shr_1 (rec0 m)) = negb (m mod 2 ^ Z.of_nat k =? 0).
Proof.
  intros Hm. induction k as [|k IH].
  - change (Nat.iter 1 shr_1 (rec0 m)) with (shr_1 (rec0 m)).
    destruct (shr_1_m (rec0 m) Hm) as (H1 & H2 & H3).
    rewrite H1, H2, H3. cbn [rec0 shr_m shr_r shr_s Z.of_nat].
    change (2 ^ 0) with 1. change (2 ^ (0 + 1)) with 2.
    rewrite Z.div_1_r, Z.mod_1_r. auto.
  - change (Nat.iter (S (S k)) shr_1 (rec0 m)) with (shr_1 (Nat.iter (S k) shr_1 (rec0 m))).
    remember (Nat.iter (S k) shr_1 (rec0 m)) as r eqn:Er.
    destruct IH as (I1 & I2 & I3).
    assert (Hq : 0 <= shr_m r).
    { rewrite I1. apply Z.div_pos; [lia|]. apply Z.pow_pos_nonneg; lia. }
    destruct (shr_1_m r Hq) as (H1 & H2 & H3).
    rewrite H1, H2, H3, I1, I2, I3.
    rewrite Nat2Z.inj_succ. unfold Z.succ.
    assert (Hp : 0 < 2 ^ (Z.of_nat k + 1)) by (apply Z.pow_pos_nonneg; lia).
    assert (Hp0 : 0 < 2 ^ Z.of_nat k) by (apply Z.pow_pos_nonneg; lia).
    repeat split.
    + rewrite Z.div_div by lia. rewrite (Z.pow_add_r 2 (Z.of_nat k + 1) 1) by lia.
      reflexivity.
    + rewrite (mod_pow2_succ m (Z.of_nat k)) by lia.
      pose proof (Z.mod_pos_bound m (2 ^ Z.of_nat k) Hp0) as Hb.
      pose proof (Z.mod_pos_bound (m / 2 ^ Z.of_nat k) 2 ltac:(lia)) as Hb2.
      rewrite Zodd_mod.
      destruct (Z.eqb_spec ((m / 2 ^ Z.of_nat k) mod 2) 1) as [E|E];
        destruct (Z.eqb_spec (m mod 2 ^ Z.of_nat k) 0) as [E0|E0]; cbn;
        symmetry; rewrite ?negb_true_iff, ?negb_false_iff;
        try (apply Z.eqb_neq); try (apply Z.eqb_eq); nia.
Qed.

Lemma shr_round (m : Z) (p : positive) :
  0 <= m ->
  let r := iter_pos shr_1 p (rec0 m) in
  round_nearest_even (shr_m r) (loc_of_shr_record r) = rne m (Zpos p).
Proof.
  intros Hm. cbn zeta. rewrite iter_pos_nat.
  destruct (Pos2Nat.is_succ p) as [k Hk]. rewrite Hk.
  assert (Ep : Zpos p = Z.of_nat k + 1) by lia.
  destruct (shr_iter m k Hm) as (H1 & H2 & H3).
  set (r := Nat.iter (S k) shr_1 (rec0 m)) in *.
  unfold rne. rewrite Ep, <- H1.
  rewrite (mod_pow2_succ m (Z.of_nat k)) by lia.
  assert (Hp0 : 0 < 2 ^ Z.of_nat k) by (apply Z.pow_pos_nonneg; lia).
  pose proof (Z.mod_pos_bound m (2 ^ Z.of_nat k) Hp0) as Hb.
  pose proof (Z.mod_pos_bound (m / 2 ^ Z.of_nat k) 2 ltac:(lia)) as Hb2.
  rewrite Z.pow_add_r by lia. change (2 ^ 1) with 2.
  destruct r as [q rb sb]. cbn [shr_m shr_r shr_s] in *.
  rewrite Zodd_mod in H2. subst rb sb.
  destruct (Z.eqb_spec ((m / 2 ^ Z.of_nat k) mod 2) 1) as [E|E];
    destruct (Z.eqb_spec (m mod 2 ^ Z.of_nat k) 0) as [E0|E0];
    cbn [negb loc_of_shr_record round_nearest_even].
  - rewrite E, E0.
    replace (2 * (0 + 2 ^ Z.of_nat k * 1)) with (2 ^ Z.of_nat k * 2) by lia.
    rewrite Z.compare_refl. reflexivity.
  - assert (G : 2 * (m mod 2 ^ Z.of_nat k + 2 ^ Z.of_nat k * ((m / 2 ^ Z.of_nat k) mod 2))
                > 2 ^ Z.of_nat k * 2) by nia.
    rewrite G. reflexivity.
  - assert (G : 2 * (m mod 2 ^ Z.of_nat k + 2 ^ Z.of_nat k * ((m / 2 ^ Z.of_nat k) mod 2))
                < 2 ^ Z.of_nat k * 2) by nia.
    rewrite G. reflexivity.
  - assert (G : 2 * (m mod 2 ^ Z.of_nat k + 2 ^ Z.of_nat k * ((m / 2 ^ Z.of_nat k) mod 2))
                < 2 ^ Z.of_nat k * 2) by nia.
    rewrite G. reflexivity.
Qed.

Lemma fexp32_eq (k : Z) : fexp32 k = Z.max (k - 24) (-149).
Proof. reflexivity. Qed.

Lemma ndigits_bounds (m : positive) : 2 ^ (ndigits m - 1) <= Zpos m < 2 ^ ndigits m.
Proof.
  unfold ndigits. rewrite digits2_log2.
  destruct (Z.log2_spec (Zpos m)) as [H1 H2]; [lia|].
  replace (Z.log2 (Zpos m) + 1 - 1) with (Z.log2 (Zpos m)) by lia.
  unfold Z.succ in H2. lia.
Qed.

Lemma ndigits_unique (m : positive) (k : Z) : 2 ^ (k - 1) <= Zpos m < 2 ^ k -> ndigits m = k.
Proof.
  intros [H1 H2]. unfold ndigits. rewrite digits2_log2.
  assert (0 < k).
  { destruct (Z.leb_spec k 0) as [Hk|Hk]; [|lia].
    assert (2 ^ k <= 2 ^ 0)
      by (destruct (Z.eq_dec k 0) as [->|]; [lia|rewrite Z.pow_neg_r by lia; cbn; lia]).
    cbn in *. lia. }
  rewrite (Z.log2_unique (Zpos m) (k - 1)); try lia.
  replace (Z.succ (k - 1)) with k by lia. lia.
Qed.

Lemma ndigits_pos (m : positive) : 0 < ndigits m.
Proof. unfold ndigits. lia. Qed.

Lemma shift_ok_emin (m : positive) (e : Z) : -149 <= e -> shift_ok m e.
Proof. unfold shift_ok. rewrite fexp32_eq. lia. Qed.

Lemma rne_bounds (m n : Z) : m / 2 ^ n <= rne m n <= m / 2 ^ n + 1.
Proof.
  unfold rne. destruct (2 * (m mod 2 ^ n) ?= 2 ^ n); [destruct (Z.even _)| |]; lia.
Qed.

Lemma pow2_pos (k : Z) : 0 <= k -> 0 < 2 ^ k.
Proof. intros. apply Z.pow_pos_nonneg; lia. Qed.

(** Dividing a [d]-digit number by [2^(d-24)] leaves 24 digits. *)
Lemma shifted_range (m : positive) (n : Z) :
  0 < n -> n = ndigits m - 24 -> 2 ^ 23 <= Zpos m / 2 ^ n < 2 ^ 24.
Proof.
  intros Hn En. pose proof (ndigits_bounds m) as [H1 H2].
  assert (Hp : 0 < 2 ^ n) by (apply pow2_pos; lia).
  replace (ndigits m - 1) with (23 + n) in H1 by lia.
  replace (ndigits m) with (24 + n) in H2 by lia.
  rewrite Z.pow_add_r in H1, H2 by lia.
  split.
  - apply Z.div_le_lower_bound; lia.
  - apply Z.div_lt_upper_bound; lia.
Qed.

Lemma binary_round_aux_spec (sx : bool) (m : positive) (e : Z) :
  shift_ok m e ->
  binary_round_aux 24 128 sx (Zpos m) e loc_Exact = round_pos sx m e.
Proof.
  intros He. unfold binary_round_aux, round_pos, shr_fexp.
  cbn [Zdigits2 shr_record_of_loc]. fold (ndigits m).
  unfold shift_ok in He.
  remember (fexp32 (ndigits m + e) - e) as n eqn:En.
  destruct n as [|p|p].
  - (* no shift *)
    cbn [shr Z.leb Z.compare round_nearest_even loc_of_shr_record shr_m].
    cbn [Zdigits2]. fold (ndigits m). rewrite <- En. cbn [shr shr_m].
    reflexivity.
  - (* shift right by p *)
    cbn [shr]. change (Zpos p <=? 0) with false. cbn match.
    fold (rec0 (Zpos m)).
    rewrite (shr_round (Zpos m) p) by lia.
    assert (Hn : Zpos p = ndigits m - 24) by lia.
    pose proof (shifted_range m (Zpos p) ltac:(lia) Hn) as Hq.
    pose proof (rne_bounds (Zpos m) (Zpos p)) as Hr.
    set (q := rne (Zpos m) (Zpos p)) in *.
    destruct (Z.eqb_spec q (2 ^ 24)) as [Eq|Nq].
    + rewrite Eq. change (Zdigits2 (2 ^ 24)) with 25. rewrite fexp32_eq.
      rewrite fexp32_eq in En.
      replace (Z.max (25 + (e + Zpos p) - 24) (-149) - (e + Zpos p)) with 1 by lia.
      reflexivity.
    + assert (Hq' : 2 ^ 23 <= q < 2 ^ 24) by lia.
      destruct q as [|q|q]; try (cbn in Hq'; lia).
      cbn [Zdigits2]. fold (ndigits q).
      rewrite (ndigits_unique q 24) by exact Hq'.
      rewrite fexp32_eq. rewrite fexp32_eq in En.
      replace (Z.max (24 + (e + Zpos p) - 24) (-149) - (e + Zpos p)) with 0 by lia.
      cbn [shr shr_m Z.to_pos]. reflexivity.
  - (* negative count: no shift *)
    cbn [shr round_nearest_even loc_of_shr_record shr_m].
    change (Zneg p <=? 0) with true. cbn match.
    cbn [Zdigits2]. fold (ndigits m). rewrite <- En. cbn [shr shr_m].
    reflexivity.
Qed.

Lemma iter_xO (m d : positive) : Zpos (Pos.iter xO m d) = Zpos m * 2 ^ Zpos d.
Proof.
  induction d as [|d IH] using Pos.peano_ind.
  - cbn. lia.
  - rewrite Pos.iter_succ, Pos2Z.inj_xO, IH, Pos2Z.inj_succ, Z.pow_succ_r by lia. lia.
Qed.

(** [shl_align] towards a smaller exponent scales the mantissa. *)
Lemma shl_align_le (m : positive) (e e' : Z) :
  e' <= e ->
  Zpos (fst (shl_align m e e')) = Zpos m * 2 ^ (e - e') /\
  (e' < e -> snd (shl_align m e e') = e').
Proof.
  intros H. unfold shl_align. destruct (e' - e) as [|p|p] eqn:E; cbn [fst snd]; try lia.
  - replace (e - e') with 0 by lia. cbn. split; lia.
  - rewrite iter_xO. replace (e - e') with (Zpos p) by lia. split; lia.
Qed.

Lemma ndigits_shift (m : positive) (k : Z) (mz : positive) :
  0 <= k -> Zpos mz = Zpos m * 2 ^ k -> ndigits mz = ndigits m + k.
Proof.
  intros Hk E. unfold ndigits. rewrite !digits2_log2, E.
  rewrite Z.log2_mul_pow2 by lia. lia.
Qed.

(** [binary_round] on a mantissa at an exponent no less than [emin]:
    the mantissa is first aligned (shifted left if it has room), then
    rounded. *)
Lemma binary_round_spec (sx : bool) (m : positive) (e : Z) :
  -149 <= e ->
  exists mz ez,
    binary_round 24 128 sx m e = round_pos sx mz ez /\
    -149 <= ez <= e /\ ez <= fexp32 (ndigits mz + ez) /\
    Zpos mz = Zpos m * 2 ^ (e - ez).
Proof.
  intros He. unfold binary_round. fold (ndigits m).
  destruct (shl_align m e (fexp32 (ndigits m + e))) as [mz ez] eqn:Ea.
  exists mz, ez.
  destruct (Z.ltb_spec (fexp32 (ndigits m + e)) e) as [Hlt|Hge].
  - destruct (shl_align_le m e (fexp32 (ndigits m + e)) ltac:(lia)) as [H1 H2].
    rewrite Ea in H1, H2. cbn [fst snd] in H1, H2. specialize (H2 Hlt). subst ez.
    assert (Hd : ndigits mz = ndigits m + (e - fexp32 (ndigits m + e)))
      by (apply ndigits_shift; [lia|exact H1]).
    assert (Hf : -149 <= fexp32 (ndigits m + e)) by (rewrite fexp32_eq; lia).
    rewrite binary_round_aux_spec by (apply shift_ok_emin; lia).
    repeat split; try lia. rewrite Hd.
    replace (ndigits m + (e - fexp32 (ndigits m + e)) + fexp32 (ndigits m + e))
      with (ndigits m + e) by lia.
    lia.
  - unfold shl_align in Ea.
    destruct (fexp32 (ndigits m + e) - e) as [|p|p] eqn:E; try lia;
      inversion Ea; subst mz ez;
      (rewrite binary_round_aux_spec by (apply shift_ok_emin; lia));
      repeat split; try lia; rewrite Z.sub_diag; cbn; lia.
Qed.

Lemma round_pos_normal (sx : bool) (m : positive) (e : Z) :
  shift_ok m e -> e <= fexp32 (ndigits m + e) -> 24 <= ndigits m ->
  round_pos sx m e = S754_infinity sx \/
  exists m' e', round_pos sx m e = S754_finite sx m' e' /\ normal m' e' /\ e <= e'.
Proof.
  intros Hs Hn Hd. unfold round_pos, shift_ok in *.
  rewrite fexp32_eq in *.
  destruct (Z.leb_spec (Z.max (ndigits m + e - 24) (-149) - e) 0) as [H0|H0].
  - unfold fin_or_inf. destruct (Z.leb_spec e 104); [right|left; reflexivity].
    exists m, e. unfold normal. repeat split; lia.
  - set (n := Z.max (ndigits m + e - 24) (-149) - e) in *.
    assert (En : n = ndigits m - 24) by lia.
    pose proof (shifted_range m n H0 En) as Hq.
    pose proof (rne_bounds (Zpos m) n) as Hr.
    set (q := rne (Zpos m) n) in *.
    destruct (Z.eqb_spec q (2 ^ 24)) as [Eq|Nq]; unfold fin_or_inf.
    + destruct (Z.leb_spec (e + n + 1) 104); [right|left; reflexivity].
      exists (2 ^ 23)%positive, (e + n + 1). unfold normal. repeat split; try lia.
    + destruct (Z.leb_spec (e + n) 104); [right|left; reflexivity].
      exists (Z.to_pos q), (e + n). unfold normal. repeat split; try lia.
      apply ndigits_unique. rewrite Z2Pos.id by lia. lia.
Qed.

Lemma SFleb_finite (m1 m2 : positive) (e1 e2 : Z) :
  SFleb (S754_finite false m1 e1) (S754_finite false m2 e2) = true <->
  e1 < e2 \/ (e1 = e2 /\ Zpos m1 <= Zpos m2).
Proof.
  unfold SFleb, SFcompare.
  change (Pos.compare_cont Eq m1 m2) with (Pos.compare m1 m2).
  destruct (Z.compare_spec e1 e2) as [E|E|E].
  - destruct (Pos.compare_spec m1 m2) as [E'|E'|E']; split; intros H;
      try reflexivity; try discriminate; try lia.
  - split; [left; exact E|reflexivity].
  - split; [discriminate|lia].
Qed.

Lemma scaled_digits (m1 m2 : positive) (e1 e2 : Z) :
  -149 <= e1 -> -149 <= e2 -> scaled m1 e1 <= scaled m2 e2 -> ndigits m1 + e1 <= ndigits m2 + e2.
Proof.
  unfold scaled. intros H1 H2 Hv.
  pose proof (ndigits_bounds m1) as [L1 _]. pose proof (ndigits_bounds m2) as [_ U2].
  pose proof (ndigits_pos m1). pose proof (ndigits_pos m2).
  assert (Hlt : 2 ^ (ndigits m1 - 1 + (e1 + 149)) < 2 ^ (ndigits m2 + (e2 + 149))).
  { rewrite (Z.pow_add_r 2 (ndigits m1 - 1)), (Z.pow_add_r 2 (ndigits m2)) by lia.
    pose proof (pow2_pos (e1 + 149) ltac:(lia)). pose proof (pow2_pos (e2 + 149) ltac:(lia)).
    apply Z.le_lt_trans with (Zpos m1 * 2 ^ (e1 + 149)).
    - apply Z.mul_le_mono_nonneg_r; lia.
    - apply Z.le_lt_trans with (Zpos m2 * 2 ^ (e2 + 149)); [exact Hv|].
      apply Zmult_lt_compat_r; lia. }
  apply Z.pow_lt_mono_r_iff in Hlt; lia.
Qed.

Lemma round_pos_ge (m mx : positive) (e ex : Z) :
  -149 <= e -> e <= fexp32 (ndigits m + e) ->
  normal mx ex -> scaled mx ex <= scaled m e ->
  SFleb (S754_finite false mx ex) (round_pos false m e) = true.
Proof.
  intros He Hn [Hdx Hex] Hv.
  pose proof (scaled_digits mx m ex e ltac:(lia) He Hv) as Hd.
  unfold round_pos. rewrite fexp32_eq in *.
  assert (Hpow : forall k, 0 <= k -> ex = e + k -> Zpos mx * 2 ^ k <= Zpos m).
  { intros k Hk Ek. unfold scaled in Hv. subst ex.
    replace (e + k + 149) with (k + (e + 149)) in Hv by lia.
    rewrite Z.pow_add_r in Hv by lia.
    pose proof (pow2_pos (e + 149) ltac:(lia)). nia. }
  destruct (Z.leb_spec (Z.max (ndigits m + e - 24) (-149) - e) 0) as [H0|H0].
  - unfold fin_or_inf. destruct (Z.leb_spec e 104); [|reflexivity].
    apply SFleb_finite.
    destruct (Z.eq_dec ex e) as [E|E]; [right|left; lia].
    split; [exact E|]. specialize (Hpow 0 ltac:(lia) ltac:(lia)). lia.
  - set (n := Z.max (ndigits m + e - 24) (-149) - e) in *.
    assert (En : n = ndigits m - 24) by lia.
    pose proof (shifted_range m n H0 En) as Hq.
    pose proof (rne_bounds (Zpos m) n) as Hr.
    set (q := rne (Zpos m) n) in *.
    destruct (Z.eqb_spec q (2 ^ 24)) as [Eq|Nq]; unfold fin_or_inf.
    + destruct (Z.leb_spec (e + n + 1) 104); [|reflexivity].
      apply SFleb_finite. left. lia.
    + destruct (Z.leb_spec (e + n) 104); [|reflexivity].
      apply SFleb_finite.
      destruct (Z.eq_dec ex (e + n)) as [E|E]; [right|left; lia].
      split; [exact E|]. rewrite Z2Pos.id by lia.
      specialize (Hpow n ltac:(lia) E).
      assert (Zpos mx <= Zpos m / 2 ^ n); [|lia].
      apply Z.div_le_lower_bound; [apply pow2_pos; lia|lia].
Qed.

Lemma ndigits_ge_24 (m : positive) : 2 ^ 23 <= Zpos m -> 24 <= ndigits m.
Proof.
  intros H. pose proof (ndigits_bounds m) as [_ U]. pose proof (ndigits_pos m).
  assert (Hlt : 2 ^ 23 < 2 ^ ndigits m) by lia.
  apply Z.pow_lt_mono_r_iff in Hlt; lia.
Qed.

Lemma normal_ge (m : positive) (e : Z) : normal m e -> 2 ^ 23 <= Zpos m.
Proof.
  intros [Hd _]. pose proof (ndigits_bounds m) as [L _]. rewrite Hd in L. exact L.
Qed.

Lemma scaled_shift (m mz : positive) (e ez : Z) :
  -149 <= ez <= e -> Zpos mz = Zpos m * 2 ^ (e - ez) -> scaled mz ez = scaled m e.
Proof.
  intros H E. unfold scaled. rewrite E, <- Z.mul_assoc, <- Z.pow_add_r by lia.
  f_equal. f_equal. lia.
Qed.

Lemma SFleb_refl (x : spec_float) : cursor_ok x -> SFleb x x = true.
Proof.
  destruct x as [s|s| |s m e]; cbn [cursor_ok]; intros H.
  - reflexivity.
  - subst s. reflexivity.
  - contradiction.
  - destruct H as [-> _]. apply SFleb_finite. right. split; lia.
Qed.

Lemma cursor_ok_round (m : positive) (e : Z) :
  -149 <= e -> -125 <= ndigits m + e ->
  cursor_ok (binary_round 24 128 false m e) /\
  forall mx ex, normal mx ex -> scaled mx ex <= scaled m e ->
    SFleb (S754_finite false mx ex) (binary_round 24 128 false m e) = true.
Proof.
  intros He Hm.
  destruct (binary_round_spec false m e He) as (mz & ez & -> & Hez & Hn & Emz).
  assert (Hd : 24 <= ndigits mz).
  { rewrite (ndigits_shift m (e - ez) mz) in * by (try lia; exact Emz).
    rewrite fexp32_eq in Hn. lia. }
  split.
  - destruct (round_pos_normal false mz ez (shift_ok_emin mz ez ltac:(lia)) Hn Hd)
      as [-> | (m' & e' & -> & Hnorm & _)]; cbn [cursor_ok]; auto.
  - intros mx ex Hx Hv. apply round_pos_ge; try lia; try assumption.
    rewrite (scaled_shift m mz e ez) by (try lia; exact Emz). exact Hv.
Qed.

Lemma cursor_ok_add (x a : spec_float) :
  cursor_ok x -> cursor_ok a ->
  cursor_ok (SFadd 24 128 x a) /\ SFleb x (SFadd 24 128 x a) = true.
Proof.
  intros Hx Ha.
  destruct x as [sx|sx| |sx mx ex], a as [sa|sa| |sa ma ea];
    cbn [cursor_ok] in Hx, Ha; try contradiction;
    repeat match goal with
    | H : _ /\ _ |- _ => destruct H
    | H : ?s = false |- _ => subst s
    end.
  all: try (destruct sx).
  all: try (destruct sa).
  all: try (cbn; auto; fail).
  all: try (cbn [SFadd]; split; [cbn [cursor_ok]; auto|]; try reflexivity;
            apply SFleb_finite; right; split; lia).
  match goal with H1 : normal mx ex, H2 : normal ma ea |- _ =>
    rename H1 into Hx, H2 into Ha end.
  cbn [SFadd cond_Zopp].
  destruct (shl_align_le mx ex (Z.min ex ea) ltac:(lia)) as [Ex _].
  destruct (shl_align_le ma ea (Z.min ex ea) ltac:(lia)) as [Ea _].
  set (px := fst (shl_align mx ex (Z.min ex ea))) in *.
  set (pa := fst (shl_align ma ea (Z.min ex ea))) in *.
  change (Zpos px + Zpos pa) with (Zpos (px + pa)).
  cbn [binary_normalize].
  set (ez := Z.min ex ea) in *.
  pose proof (normal_ge mx ex Hx) as Lx.
  destruct Hx as [Hdx Hex]. destruct Ha as [Hda Hea].
  assert (Hez : -149 <= ez) by lia.
  assert (Hsum : Zpos (px + pa) = Zpos mx * 2 ^ (ex - ez) + Zpos ma * 2 ^ (ea - ez))
    by (rewrite Pos2Z.inj_add; lia).
  pose proof (pow2_pos (ex - ez) ltac:(lia)) as Px.
  pose proof (pow2_pos (ea - ez) ltac:(lia)) as Pa.
  destruct (cursor_ok_round (px + pa) ez Hez) as [Hg Hle].
  { assert (24 <= ndigits (px + pa)); [apply ndigits_ge_24; nia|lia]. }
  split; [exact Hg|].
  apply Hle; [split; assumption|].
  unfold scaled. rewrite Hsum.
  replace (ex + 149) with ((ex - ez) + (ez + 149)) by lia.
  rewrite Z.pow_add_r by lia.
  pose proof (pow2_pos (ez + 149) ltac:(lia)). nia.
Qed.

Lemma cursor_ok_of_int (n : Z) : 0 <= n -> cursor_ok (binary_normalize 24 128 n 0 false).
Proof.
  intros Hn. destruct n as [|p|p]; [exact I| |lia].
  cbn [binary_normalize]. apply cursor_ok_round; [lia|]. pose proof (ndigits_pos p). lia.
Qed.

Lemma rne_exact (m n : Z) : 0 < n -> rne (m * 2 ^ n) n = m.
Proof.
  intros Hn. unfold rne. pose proof (pow2_pos n ltac:(lia)) as Hp.
  rewrite Z.mod_mul, Z.div_mul by lia.
  replace (2 * 0) with 0 by lia.
  destruct (Z.compare_spec 0 (2 ^ n)); lia.
Qed.

(** Multiplication by [4.0f] of a normal number. *)
Lemma mul_four (sx : bool) (m : positive) (e : Z) :
  normal m e ->
  SFmul 24 128 (S754_finite sx m e) (S754_finite false 8388608 (-21)) =
  fin_or_inf sx m (e + 2).
Proof.
  intros [Hd He]. cbn [SFmul]. rewrite xorb_false_r.
  assert (ED : ndigits (m * 8388608) = ndigits m + 23).
  { apply ndigits_shift; [lia|]. rewrite Pos2Z.inj_mul. reflexivity. }
  assert (En : fexp32 (ndigits (m * 8388608) + (e + -21)) - (e + -21) = 23)
    by (rewrite fexp32_eq, ED; lia).
  rewrite binary_round_aux_spec by (right; rewrite En, ED; lia).
  unfold round_pos. rewrite En. change (23 <=? 0) with false. cbn match.
  rewrite Pos2Z.inj_mul. change (Zpos 8388608) with (2 ^ 23).
  rewrite rne_exact by lia.
  pose proof (ndigits_bounds m) as [_ U]. rewrite Hd in U.
  destruct (Z.eqb_spec (Zpos m) (2 ^ 24)); [lia|].
  cbn [Z.to_pos]. f_equal. lia.
Qed.

Lemma cursor_ok_mul_four (s : spec_float) :
  cursor_ok s -> cursor_ok (SFmul 24 128 s (S754_finite false 8388608 (-21))).
Proof.
  destruct s as [sx|sx| |sx m e]; cbn [cursor_ok]; intros H.
  - exact I.
  - subst sx. reflexivity.
  - contradiction.
  - destruct H as [-> Hn]. rewrite mul_four by exact Hn.
    unfold fin_or_inf. destruct Hn as [Hd He].
    destruct (Z.leb_spec (e + 2) 104); cbn [cursor_ok]; [|reflexivity].
    split; [reflexivity|]. split; [exact Hd|lia].
Qed.

Lemma SFleb_trans (a b c : spec_float) :
  cursor_ok a -> cursor_ok b -> cursor_ok c ->
  SFleb a b = true -> SFleb b c = true -> SFleb a c = true.
Proof.
  intros Ha Hb Hc.
  destruct a as [sa|sa| |sa ma ea], b as [sb|sb| |sb mb eb], c as [sc|sc| |sc mc ec];
    cbn [cursor_ok] in Ha, Hb, Hc; try contradiction;
    repeat match goal with
    | H : _ /\ _ |- _ => destruct H
    | H : ?s = false |- _ => subst s
    end;
    try (cbn; congruence).
  rewrite !SFleb_finite. lia.
Qed.

(** ** Four additions of a number against one multiplication by four *)

Lemma add_same_sign (sx : bool) (mx my M : positive) (ex ey : Z) :
  ey <= ex -> Zpos M = Zpos mx * 2 ^ (ex - ey) + Zpos my ->
  SFadd 24 128 (S754_finite sx mx ex) (S754_finite sx my ey) =
  binary_round 24 128 sx M ey.
Proof.
  intros Hle EM. cbn [SFadd]. rewrite Z.min_r by exact Hle.
  destruct (shl_align_le mx ex ey Hle) as [Ex _].
  destruct (shl_align_le my ey ey ltac:(lia)) as [Ey _].
  rewrite Z.sub_diag in Ey. change (2 ^ 0) with 1 in Ey. rewrite Z.mul_1_r in Ey.
  set (px := fst (shl_align mx ex ey)) in *.
  set (py := fst (shl_align my ey ey)) in *.
  assert (E : M = (px + py)%positive) by lia.
  subst M. destruct sx; reflexivity.
Qed.

Lemma binary_round_noshift (sx : bool) (m : positive) (e : Z) :
  -149 <= e -> e <= fexp32 (ndigits m + e) ->
  binary_round 24 128 sx m e = round_pos sx m e.
Proof.
  intros He Hn. unfold binary_round. fold (ndigits m). unfold shl_align.
  destruct (fexp32 (ndigits m + e) - e) eqn:E; try lia;
    apply binary_round_aux_spec, shift_ok_emin; exact He.
Qed.

(** Rounding a mantissa of [24 + k] digits. *)
Lemma round_pos_eval (sx : bool) (M : positive) (e k : Z) (q : positive) :
  -149 <= e -> 0 < k -> 2 ^ (23 + k) <= Zpos M < 2 ^ (24 + k) ->
  rne (Zpos M) k = Zpos q -> Zpos q < 2 ^ 24 ->
  binary_round 24 128 sx M e = fin_or_inf sx q (e + k).
Proof.
  intros He Hk HM Eq Hq.
  assert (HD : ndigits M = 24 + k).
  { apply ndigits_unique. replace (24 + k - 1) with (23 + k) by lia. exact HM. }
  rewrite binary_round_noshift by (rewrite ?fexp32_eq, ?HD; lia).
  unfold round_pos. rewrite fexp32_eq, HD.
  replace (Z.max (24 + k + e - 24) (-149) - e) with k by lia.
  destruct (Z.leb_spec k 0); [lia|]. rewrite Eq.
  destruct (Z.eqb_spec (Zpos q) (2 ^ 24)); [lia|]. reflexivity.
Qed.

Ltac rne_cases :=
  unfold rne; change (2 ^ 1) with 2; change (2 ^ 2) with 4;
  repeat match goal with
  | |- context [Z.even ?a] => rewrite (Zeven_mod a)
  | |- context [?a =? ?b] => destruct (Z.eqb_spec a b)
  | |- context [?a ?= ?b] => destruct (Z.compare_spec a b)
  end.

Lemma rne_double (m : Z) : rne (2 * m) 1 = m.
Proof. rne_cases; Z.div_mod_to_equations; lia. Qed.

Lemma rne_triple_1 (m : Z) :
  let q := rne (3 * m) 1 in
  -1 <= 2 * q - 3 * m <= 1 /\ (2 * q - 3 * m <> 0 -> m mod 2 = 1).
Proof. cbn zeta. rne_cases; Z.div_mod_to_equations; lia. Qed.

Lemma rne_triple_2 (m : Z) :
  let q := rne (3 * m) 2 in
  -2 <= 4 * q - 3 * m <= 2 /\
  (4 * q - 3 * m = 2 \/ 4 * q - 3 * m = -2 -> m mod 2 = 0).
Proof. cbn zeta. rne_cases; Z.div_mod_to_equations; lia. Qed.

Lemma rne_quad (m d : Z) :
  -2 <= d <= 2 -> (d = 2 \/ d = -2 -> m mod 2 = 0) -> rne (4 * m + d) 2 = m.
Proof. intros Hd He. rne_cases; Z.div_mod_to_equations; lia. Qed.

Lemma add_eval (sx : bool) (mx my q : positive) (ex ey k : Z) :
  ey <= ex -> -149 <= ey -> 0 < k ->
  2 ^ (23 + k) <= Zpos mx * 2 ^ (ex - ey) + Zpos my < 2 ^ (24 + k) ->
  rne (Zpos mx * 2 ^ (ex - ey) + Zpos my) k = Zpos q -> Zpos q < 2 ^ 24 ->
  SFadd 24 128 (S754_finite sx mx ex) (S754_finite sx my ey) =
  fin_or_inf sx q (ey + k).
Proof.
  intros Hle He Hk HM Eq Hq.
  pose proof (pow2_pos (ex - ey) ltac:(lia)) as Hp.
  assert (EM : Zpos (Z.to_pos (Zpos mx * 2 ^ (ex - ey) + Zpos my)) =
               Zpos mx * 2 ^ (ex - ey) + Zpos my) by (apply Z2Pos.id; nia).
  rewrite (add_same_sign sx mx my _ ex ey Hle EM).
  apply round_pos_eval; rewrite ?EM; assumption.
Qed.

Lemma add_inf_finite (sx sy : bool) (m : positive) (e : Z) :
  SFadd 24 128 (S754_infinity sx) (S754_finite sy m e) = S754_infinity sx.
Proof. reflexivity. Qed.

Lemma four_adds (sx : bool) (m : positive) (e : Z) :
  normal m e ->
  let s := S754_finite sx m e in
  SFadd 24 128 (SFadd 24 128 (SFadd 24 128 s s) s) s = fin_or_inf sx m (e + 2).
Proof.
  intros Hn. pose proof (normal_ge m e Hn) as L. destruct Hn as [Hd He].
  pose proof (ndigits_bounds m) as [_ U]. rewrite Hd in U. cbn zeta.
  change (2 ^ 23) with 8388608 in L. change (2 ^ 24) with 16777216 in U.
  (* s + s *)
  rewrite (add_eval sx m m m e e 1); try lia;
    rewrite ?Z.sub_diag; change (2 ^ 0) with 1;
    try (replace (Zpos m * 1 + Zpos m) with (2 * Zpos m) by lia; apply rne_double);
    try (cbn; lia).
  unfold fin_or_inf at 1.
  destruct (Z.leb_spec (e + 1) 104) as [H1|H1];
    [|rewrite !add_inf_finite; unfold fin_or_inf;
      destruct (Z.leb_spec (e + 2) 104); [lia|reflexivity]].
  replace (e + 1 - e) with 1 by lia.
  (* 2s + s *)
  destruct (Z.ltb_spec (3 * Zpos m) (2 ^ 25)) as [H3|H3];
    change (2 ^ 25) with 33554432 in H3.
  - destruct (rne_triple_1 (Zpos m)) as [Hq1 Hodd].
    set (q1 := rne (3 * Zpos m) 1) in *.
    assert (Eq1 : Zpos (Z.to_pos q1) = q1) by (apply Z2Pos.id; lia).
    rewrite (add_eval sx m m (Z.to_pos q1) (e + 1) e 1); try lia;
      replace (e + 1 - e) with 1 by lia; change (2 ^ 1) with 2;
      try (replace (Zpos m * 2 + Zpos m) with (3 * Zpos m) by lia; fold q1);
      try (cbn; lia).
    unfold fin_or_inf at 1. destruct (Z.leb_spec (e + 1) 104); [|lia].
    (* 3s + s *)
    apply (add_eval sx (Z.to_pos q1) m m (e + 1) e 2); try lia;
      replace (e + 1 - e) with 1 by lia; change (2 ^ 1) with 2; rewrite ?Eq1;
      try (cbn; Z.div_mod_to_equations; lia).
    replace (q1 * 2 + Zpos m) with (4 * Zpos m + (2 * q1 - 3 * Zpos m)) by lia.
    apply rne_quad; lia.
  - destruct (rne_triple_2 (Zpos m)) as [Hq1 Heven].
    set (q1 := rne (3 * Zpos m) 2) in *.
    assert (Eq1 : Zpos (Z.to_pos q1) = q1) by (apply Z2Pos.id; lia).
    rewrite (add_eval sx m m (Z.to_pos q1) (e + 1) e 2); try lia;
      replace (e + 1 - e) with 1 by lia; change (2 ^ 1) with 2;
      try (replace (Zpos m * 2 + Zpos m) with (3 * Zpos m) by lia; fold q1);
      try (cbn; lia).
    unfold fin_or_inf at 1.
    destruct (Z.leb_spec (e + 2) 104) as [H2|H2];
      [|rewrite add_inf_finite; unfold fin_or_inf;
        destruct (Z.leb_spec (e + 2) 104); [lia|reflexivity]].
    apply (add_eval sx (Z.to_pos q1) m m (e + 2) e 2); try lia;
      replace (e + 2 - e) with 2 by lia; change (2 ^ 2) with 4; rewrite ?Eq1;
      try (cbn; lia).
    replace (q1 * 4 + Zpos m) with (4 * Zpos m + (4 * q1 - 3 * Zpos m)) by lia.
    apply rne_quad; lia.
Qed.

(** ** Sums of numbers of one sign *)

Lemma binary_round_normalish (sx : bool) (m : positive) (e : Z) :
  -149 <= e -> -125 <= ndigits m + e ->
  normalish sx (binary_round 24 128 sx m e).
Proof.
  intros He Hm.
  destruct (binary_round_spec sx m e He) as (mz & ez & -> & Hez & Hn & Emz).
  assert (Hd : 24 <= ndigits mz).
  { rewrite (ndigits_shift m (e - ez) mz) in * by (try lia; exact Emz).
    rewrite fexp32_eq in Hn. lia. }
  destruct (round_pos_normal sx mz ez (shift_ok_emin mz ez ltac:(lia)) Hn Hd)
    as [-> | (m' & e' & -> & Hnorm & _)]; cbn [normalish]; auto.
Qed.

Lemma add_normalish (sx : bool) (v s : spec_float) :
  normalish sx v -> normalish sx s -> normalish sx (SFadd 24 128 v s).
Proof.
  intros Hv Hs.
  destruct v as [sv|sv| |sv mv ev], s as [ss|ss| |ss ms es];
    cbn [normalish] in Hv, Hs; try contradiction;
    repeat match goal with
    | H : _ /\ _ |- _ => destruct H
    | H : ?b = sx |- _ => subst b
    end.
  - destruct sx; reflexivity.
  - reflexivity.
  - reflexivity.
  - match goal with H1 : normal mv ev, H2 : normal ms es |- _ =>
      rename H1 into Hv, H2 into Hs end.
    pose proof (normal_ge mv ev Hv) as Lv.
    destruct Hv as [_ Hev]. destruct Hs as [_ Hes].
    destruct (shl_align_le mv ev (Z.min ev es) ltac:(lia)) as [Ev _].
    destruct (shl_align_le ms es (Z.min ev es) ltac:(lia)) as [Es _].
    pose proof (pow2_pos (ev - Z.min ev es) ltac:(lia)) as Pv.
    assert (E : SFadd 24 128 (S754_finite sx mv ev) (S754_finite sx ms es) =
                binary_round 24 128 sx
                  (fst (shl_align mv ev (Z.min ev es)) + fst (shl_align ms es (Z.min ev es)))
                  (Z.min ev es))
      by (destruct sx; reflexivity).
    rewrite E. apply binary_round_normalish; [lia|].
    assert (24 <= ndigits (fst (shl_align mv ev (Z.min ev es))
                           + fst (shl_align ms es (Z.min ev es))));
      [apply ndigits_ge_24; rewrite Pos2Z.inj_add; nia|lia].
Qed.

Lemma of_int_cases (n : Z) :
  binary_normalize 24 128 n 0 false = S754_zero false \/
  exists sx, normalish sx (binary_normalize 24 128 n 0 false).
Proof.
  destruct n as [|p|p]; [left; reflexivity| |]; right; cbn [binary_normalize].
  - exists false. apply binary_round_normalish; [lia|]. pose proof (ndigits_pos p). lia.
  - exists true. apply binary_round_normalish; [lia|]. pose proof (ndigits_pos p). lia.
Qed.

Lemma add_zero_normalish (sx : bool) (v : spec_float) :
  normalish sx v ->
  SFadd 24 128 v (S754_zero false) = v /\ SFadd 24 128 (S754_zero false) v = v.
Proof. destruct v; cbn [normalish]; intros H; try contradiction; split; reflexivity. Qed.

(** Four rounds of "add zero, then add [s]" from zero against one round of
    "add zero, then add [s * 4]". *)
Lemma four_spaces_one_tab (s : spec_float) :
  s = S754_zero false \/ (exists sx, normalish sx s) ->
  let z := S754_zero false in
  let four := S754_finite false 8388608 (-21) in
  let sp v := SFadd 24 128 (SFadd 24 128 v z) s in
  sp (sp (sp (sp z))) = SFadd 24 128 (SFadd 24 128 z z) (SFmul 24 128 s four) /\
  sp (sp (sp (sp z))) = SFmul 24 128 s four.
Proof.
  intros [-> | [sx Hs]]; cbv beta zeta; [split; reflexivity|].
  change (SFadd 24 128 (S754_zero false) (S754_zero false)) with (S754_zero false).
  destruct (add_zero_normalish sx s Hs) as [_ ->].
  pose proof (add_normalish sx s s Hs Hs) as H2.
  pose proof (add_normalish sx _ s H2 Hs) as H3.
  destruct (add_zero_normalish sx s Hs) as [-> _].
  destruct (add_zero_normalish sx _ H2) as [-> _].
  destruct (add_zero_normalish sx _ H3) as [-> _].
  destruct s as [ss|ss| |ss m e]; cbn [normalish] in Hs; try contradiction.
  - subst ss. destruct sx; split; reflexivity.
  - destruct Hs as [-> Hn]. rewrite (four_adds sx m e Hn), (mul_four sx m e Hn).
    unfold fin_or_inf. destruct (e + 2 <=? 104); split; reflexivity.
Qed.

(** * The program over binary32 *)

Section Cursor.

Context {FS : FontStore B32.float}.

Lemma fadd_cursor_ok (v a : B32.float) :
  cursor_ok v -> cursor_ok a -> cursor_ok (fadd v a) /\ B32.leb v (fadd v a) = true.
Proof. apply cursor_ok_add. Qed.

Lemma of_int_cursor_ok (n : Z) : 0 <= n -> cursor_ok (of_int n).
Proof. apply cursor_ok_of_int. Qed.

Lemma fmul_four_cursor_ok (v : B32.float) :
  cursor_ok v -> cursor_ok (fmul v (of_int 4)).
Proof. apply cursor_ok_mul_four. Qed.

Lemma firstn_plus {A} (i k : nat) (l : list A) :
  firstn (i + k) l = firstn i l ++ firstn k (skipn i l).
Proof.
  revert l. induction i as [|i IH]; intros l; [reflexivity|].
  destruct l as [|a l]; cbn [Nat.add firstn skipn app].
  - rewrite firstn_nil. reflexivity.
  - rewrite IH. reflexivity.
Qed.

Lemma Forall_prefix {A} (P : A -> Prop) (i : nat) (l : list A) :
  Forall P l -> Forall P (firstn i l) /\ Forall P (skipn i l).
Proof.
  intros H. revert i. induction H as [|a l Ha Hl IH]; intros i.
  - rewrite firstn_nil, skipn_nil. split; constructor.
  - destruct i as [|i]; cbn [firstn skipn].
    + split; constructor; assumption.
    + destruct (IH i) as [H1 H2]. split; [constructor; assumption|exact H2].
Qed.

(** One iteration of the position loop on a character other than a line
    feed, with nothing negative to add, does not move x to the left. *)
Lemma GetCharacterPos_step_mono (font : Font B32.float) (size : Z) (bold : bool)
    (lineSpacing : B32.float) (position : Vector2f B32.float) (prevChar c : Uint32) :
  (forall a b n, 0 <= GetKerning font a b n) ->
  (forall a n b, 0 <= Advance (GetGlyph font a n b)) ->
  c <> ch_newline -> cursor_ok (x position) ->
  let st :=
    GetCharacterPos_step font size bold
      (of_int (Advance (GetGlyph font ch_space size bold))) lineSpacing
      (position, prevChar) c in
  cursor_ok (x (fst st)) /\ B32.leb (x position) (x (fst st)) = true.
Proof.
  intros Hk Ha Hc Hx. cbn zeta. unfold GetCharacterPos_step.
  destruct (fadd_cursor_ok (x position) (of_int (GetKerning font prevChar c size)) Hx
              (of_int_cursor_ok _ (Hk _ _ _))) as [Hx1 Hl1].
  set (x1 := fadd (x position) (of_int (GetKerning font prevChar c size))) in *.
  cbn [x y].
  assert (Hadd : forall a, cursor_ok a ->
            cursor_ok (fadd x1 a) /\ B32.leb (x position) (fadd x1 a) = true).
  { intros a Hga. destruct (fadd_cursor_ok x1 a Hx1 Hga) as [Hx2 Hl2].
    split; [exact Hx2|].
    apply (SFleb_trans (x position) x1 (fadd x1 a)); assumption. }
  destruct (c =? ch_space); [cbn [fst x]; apply Hadd, of_int_cursor_ok, Ha|].
  destruct (c =? ch_tab);
    [cbn [fst x]; apply Hadd, fmul_four_cursor_ok, of_int_cursor_ok, Ha|].
  destruct (c =? ch_vtab); [cbn [fst x]; auto|].
  destruct (Z.eqb_spec c ch_newline); [contradiction|].
  cbn [fst x]. apply Hadd, of_int_cursor_ok, Ha.
Qed.

Lemma GetCharacterPos_walk_mono (font : Font B32.float) (size : Z) (bold : bool)
    (lineSpacing : B32.float) (s : String) :
  (forall a b n, 0 <= GetKerning font a b n) ->
  (forall a n b, 0 <= Advance (GetGlyph font a n b)) ->
  Forall (fun c => c <> ch_newline) s ->
  forall st : PosState B32.float,
    cursor_ok (x (fst st)) ->
    let st' :=
      fold_left
        (GetCharacterPos_step font size bold
           (of_int (Advance (GetGlyph font ch_space size bold))) lineSpacing)
        s st in
    cursor_ok (x (fst st')) /\ B32.leb (x (fst st)) (x (fst st')) = true.
Proof.
  intros Hk Ha. induction 1 as [|c s Hc Hs IH]; intros st Hx; cbn zeta.
  - cbn [fold_left]. split; [exact Hx|]. apply SFleb_refl, Hx.
  - cbn [fold_left]. destruct st as [position prevChar]. cbn [fst] in Hx.
    destruct (GetCharacterPos_step_mono font size bold lineSpacing position prevChar c
                Hk Ha Hc Hx) as [Hx1 Hl1].
    cbn zeta in Hx1, Hl1.
    destruct (IH _ Hx1) as [Hx2 Hl2]. cbn zeta in Hx2, Hl2.
    split; [exact Hx2|].
    eapply SFleb_trans; [| | |exact Hl1|exact Hl2]; assumption.
Qed.

(** C7. For a string without line feed and a font whose kerning values and
    glyph advances are all non-negative, the x coordinate of the character
    position does not decrease with the index, in binary32 arithmetic. *)
Theorem GetCharacterPos_x_monotone (t : Text B32.float) (i j : nat) :
  ~ In ch_newline (myString t) ->
  (forall p, myFont t = Some p ->
     (forall a b n, 0 <= GetKerning (font_at p) a b n) /\
     (forall a n b, 0 <= Advance (GetGlyph (font_at p) a n b))) ->
  (i <= j <= length (myString t))%nat ->
  B32.leb (x (GetCharacterPos i t)) (x (GetCharacterPos j t)) = true.
Proof.
  intros Hnl Hfont Hij. unfold GetCharacterPos.
  destruct (myFont t) as [p|]; [|reflexivity].
  destruct (Hfont p eq_refl) as [Hk Ha].
  destruct (Nat.ltb_spec (length (myString t)) i) as [Hi|Hi]; [lia|].
  destruct (Nat.ltb_spec (length (myString t)) j) as [Hj|Hj]; [lia|].
  assert (Hall : Forall (fun c => c <> ch_newline) (myString t)).
  { apply Forall_forall. intros c Hin ->. exact (Hnl Hin). }
  assert (Hsplit : firstn j (myString t) =
                   firstn i (myString t) ++ firstn (j - i) (skipn i (myString t))).
  { replace j with (i + (j - i))%nat at 1 by lia. apply firstn_plus. }
  rewrite Hsplit, fold_left_app.
  destruct (Forall_prefix _ i _ Hall) as [Hpre Hsuf].
  destruct (Forall_prefix _ (j - i) _ Hsuf) as [Hmid _].
  destruct (GetCharacterPos_walk_mono (font_at p) (myCharacterSize t)
              (has_style (myStyle t) Bold)
              (of_int (GetLineSpacing (font_at p) (myCharacterSize t)))
              (firstn i (myString t)) Hk Ha Hpre (Vector2f_zero, 0)
              (of_int_cursor_ok 0 (Z.le_refl 0))) as [Hst _].
  cbn zeta in Hst.
  apply (GetCharacterPos_walk_mono (font_at p) (myCharacterSize t)
           (has_style (myStyle t) Bold)
           (of_int (GetLineSpacing (font_at p) (myCharacterSize t)))
           (firstn (j - i) (skipn i (myString t))) Hk Ha Hmid _ Hst).
Qed.

Lemma GetCharacterPos_step_space (font : Font B32.float) size bold space lineSpacing
    (position : Vector2f B32.float) (prevChar : Uint32) :
  GetCharacterPos_step font size bold space lineSpacing (position, prevChar) ch_space =
  (mkVector2f
     (fadd (fadd (x position) (of_int (GetKerning font prevChar ch_space size))) space)
     (y position), ch_space).
Proof. reflexivity. Qed.

Lemma GetCharacterPos_step_tab (font : Font B32.float) size bold space lineSpacing
    (position : Vector2f B32.float) (prevChar : Uint32) :
  GetCharacterPos_step font size bold space lineSpacing (position, prevChar) ch_tab =
  (mkVector2f
     (fadd (fadd (x position) (of_int (GetKerning font prevChar ch_tab size)))
           (fmul space (of_int 4)))
     (y position), ch_tab).
Proof. reflexivity. Qed.

(** C8. With a font whose kerning is 0 everywhere, the position after the
    one-character string "\t" is the position after the four-character
    string of spaces, in binary32 arithmetic: x is the space advance times
    four and y stays 0. *)
Theorem tab_equals_four_spaces (t1 t2 : Text B32.float) (p : FontPtr) :
  myFont t1 = Some p -> myFont t2 = Some p ->
  myCharacterSize t2 = myCharacterSize t1 -> myStyle t2 = myStyle t1 ->
  myString t1 = [ch_tab] ->
  myString t2 = [ch_space; ch_space; ch_space; ch_space] ->
  (forall a b n, GetKerning (font_at p) a b n = 0) ->
  let space :=
    of_int (Advance (GetGlyph (font_at p) ch_space (myCharacterSize t1)
                              (has_style (myStyle t1) Bold))) in
  GetCharacterPos 1 t1 = GetCharacterPos 4 t2 /\
  x (GetCharacterPos 1 t1) = fmul space (of_int 4) /\
  y (GetCharacterPos 1 t1) = fzero.
Proof.
  intros Hf1 Hf2 Hn Hy Hs1 Hs2 Hk. cbn zeta.
  unfold GetCharacterPos. rewrite Hf1, Hf2, Hs1, Hs2, Hn, Hy.
  cbn [length Nat.ltb Nat.leb firstn fold_left].
  rewrite GetCharacterPos_step_tab, !GetCharacterPos_step_space, !Hk.
  cbn [fst x y Vector2f_zero].
  set (adv := Advance (GetGlyph (font_at p) ch_space (myCharacterSize t1)
                                (has_style (myStyle t1) Bold))).
  destruct (four_spaces_one_tab (B32.of_int adv) (of_int_cases adv)) as [E1 E2].
  cbv beta zeta in E1, E2.
  split; [|split].
  - f_equal. symmetry. exact E1.
  - exact (eq_trans (eq_sym E1) E2).
  - reflexivity.
Qed.

End Cursor.

Section Binary32.

Import Sample.

(** The literals are the correctly rounded quotients. *)
Example literals_rounded :
  B32.lit_0_1 = B32.div (of_int 1) (of_int 10) /\
  B32.lit_0_07 = B32.div (of_int 7) (of_int 100) /\
  B32.lit_0_208 = B32.div (of_int 208) (of_int 1000).
Proof. vm_compute. repeat split. Qed.

(** Conversion of an [int] rounds to 24 bits, ties to even. *)
Example of_int_rounds :
  B32.of_int 16777217 = B32.of_int 16777216 /\
  B32.of_int 16777219 = B32.of_int 16777220 /\
  B32.of_int 30 = S754_finite false 15728640 (-19).
Proof. vm_compute. repeat split. Qed.

(** "ab": the cursor after both letters is at x = 30, and the box is
    30 wide and 32 high. *)
Example text_ab_layout :
  GetCharacterPos 2 text_ab = mkVector2f (of_int 30) (of_int 0) /\
  computeRect text_ab = mkRect (of_int 0) (of_int 0) (of_int 30) (of_int 32).
Proof. vm_compute. repeat split. Qed.

(** "ab\ncd": the position of 'c' is x = 0, y = line spacing. *)
Example linefeed_resets_x :
  GetCharacterPos 3 text_lines = mkVector2f (of_int 0) (of_int (GetLineSpacing font 30)).
Proof. vm_compute. reflexivity. Qed.

(** Storing "ab" again after a bounding box query clears the flag. *)
Example SetString_same_string :
  let t := snd (GetRect text_ab) in
  myString t = [97; 98] /\ myRectUpdated t = true /\
  myRectUpdated (SetString [97; 98] t) = false.
Proof. vm_compute. repeat split. Qed.

(** The underline of "g" at size 30: offset 3.0 below the baseline y = 30,
    bottom at 35.1. *)
Example underline_geometry :
  underlineOffset 30 = (of_int 3 : B32.float) /\
  underlineThickness 30 false = S754_finite false 8808038 (-22) /\
  nth 8 (Render underlined_g) Cmd_End =
    Cmd_AddVertex (of_int 0) (of_int 33) (Left coords) (Top coords) /\
  nth 10 (Render underlined_g) Cmd_End =
    Cmd_AddVertex (of_int 15) (S754_finite false 9201254 (-18))
                  (Right coords) (Bottom coords).
Proof. vm_compute. repeat split. Qed.

Lemma reachable_underlined_g : reachable underlined_g.
Proof.
  change underlined_g
    with (run (Op_SetStyle Underlined) (Text_make drawable [103] 1%positive 30)).
  apply reach_run, reach_make.
Qed.

Lemma regular_letter (c : Uint32) : 33 <= c -> regular c.
Proof. unfold regular, ch_space, ch_tab, ch_vtab, ch_newline. lia. Qed.

(** C2, the claim as written fails: for the underlined text "g" at size 30
    with a glyph reaching 2 below the baseline, [curHeight] is 32, below
    the threshold 35.1, and the bottom becomes 32 + 5.1 = 37.1, not
    32 + (35.1 - 32) = 35.1. *)
Lemma underline_adjustment_not_shortfall :
  let t := underlined_g in
  let st := UpdateRect_walk font 30 false (myString t) in
  let threshold :=
    fadd (fadd (of_int 30) (fmul (of_int 30) lit_0_1)) (fmul (of_int 30) lit_0_07) in
  let h := fadd (height st) (curHeight st) in
  has_style (myStyle t) Underlined = true /\
  curHeight st = S754_finite false 8388608 (-18) /\
  h = S754_finite false 8388608 (-18) /\
  flt (curHeight st) threshold = true /\
  fadd h (fsub threshold (curHeight st)) = S754_finite false 9201254 (-18) /\
  Bottom (computeRect t) = S754_finite false 9725542 (-18) /\
  Bottom (computeRect t) <> fadd h (fsub threshold (curHeight st)).
Proof.
  vm_compute. repeat split; discriminate.
Qed.

Lemma underline_adjustment_witness :
  myFont underlined_g = Some 1%positive /\ myString underlined_g <> [] /\
  Bottom (computeRect underlined_g) = S754_finite false 9725542 (-18).
Proof.
  split; [reflexivity|]. split; [discriminate|].
  rewrite (underline_adjustment underlined_g 1%positive);
    [reflexivity | reflexivity | discriminate].
Defined.

Lemma empty_text_bounds_and_render_witness :
  (myString (Text_default drawable) = [] \/ myFont (Text_default drawable) = None) /\
  (myString text_nofont = [] \/ myFont text_nofont = None) /\
  fst (localBounds (Text_default drawable)) = Rect_zero /\
  computeRect text_nofont = Rect_zero /\
  Render text_nofont = [].
Proof.
  split; [left; reflexivity|]. split; [right; reflexivity|].
  destruct (empty_text_bounds_and_render (Text_default drawable)) as (_ & Hb & _);
    [left; reflexivity|].
  destruct (empty_text_bounds_and_render text_nofont) as (Hc & _ & Hr & _);
    [right; reflexivity|].
  split; [apply Hb; intros _; reflexivity|]. split; [exact Hc | exact Hr].
Defined.

Lemma GetCharacterPos_clamped_witness :
  (length (myString text_ab) < 5)%nat /\ myFont text_nofont = None /\
  GetCharacterPos 5 text_ab = GetCharacterPos 2 text_ab /\
  GetCharacterPos 1 text_nofont = Vector2f_zero.
Proof.
  split; [cbn; lia|]. split; [reflexivity|]. split.
  - apply (proj1 (GetCharacterPos_clamped text_ab 5)). cbn. lia.
  - apply (proj2 (GetCharacterPos_clamped text_nofont 1)). reflexivity.
Defined.

Lemma reachable_cache_coherent_witness :
  let t := run Op_GetRect underlined_g in
  reachable t /\ myRectUpdated t = true /\ myBaseRect t = computeRect t /\
  cache_coherent (run (Op_SetString [104]) t) /\
  myBaseRect t = boundingBox_4_2 underlineAllowance t.
Proof.
  cbn zeta.
  assert (Hr : reachable (run Op_GetRect underlined_g))
    by (apply reach_run, reachable_underlined_g).
  destruct (reachable_cache_coherent _ Hr) as (Hc & Hop & H42 & _).
  split; [exact Hr|]. split; [reflexivity|]. split; [|split].
  - apply Hc. reflexivity.
  - apply Hop.
  - apply H42. reflexivity.
Defined.

(** C10, the claim as written fails: after a bounding-box query on the
    underlined text "g" of size 30 the cache is valid and its bottom is
    37.1, while the computation of section 4.2, which adds the shortfall,
    gives 35.1. *)
Lemma cache_differs_from_section_4_2 :
  let t := run Op_GetRect underlined_g in
  reachable t /\ myRectUpdated t = true /\
  Bottom (myBaseRect t) = S754_finite false 9725542 (-18) /\
  Bottom (spec_computeBoundingBox t) = S754_finite false 9201254 (-18) /\
  myBaseRect t <> spec_computeBoundingBox t.
Proof.
  cbn zeta. split; [apply reach_run, reachable_underlined_g|].
  vm_compute. repeat split. discriminate.
Qed.

Lemma font_nonnegative :
  (forall a b n, 0 <= GetKerning font a b n) /\
  (forall a n b, 0 <= Advance (GetGlyph font a n b)).
Proof.
  split; intros; cbn; [lia|]. destruct (a =? ch_space); lia.
Qed.

Lemma GetCharacterPos_x_monotone_witness :
  ~ In ch_newline (myString text_mixed) /\
  (2 <= 5 <= length (myString text_mixed))%nat /\
  B32.leb (x (GetCharacterPos 2 text_mixed)) (x (GetCharacterPos 5 text_mixed)) = true.
Proof.
  assert (Hnl : ~ In ch_newline (myString text_mixed)).
  { cbn. unfold ch_newline. intros H. repeat (destruct H as [H|H]; [discriminate H|]).
    exact H. }
  split; [exact Hnl|]. split; [cbn; lia|].
  apply (GetCharacterPos_x_monotone text_mixed 2 5).
  - exact Hnl.
  - intros p _. exact font_nonnegative.
  - cbn. lia.
Defined.

Lemma tab_equals_four_spaces_witness :
  (forall a b n, GetKerning (font_at 1%positive) a b n = 0) /\
  GetCharacterPos 1 text_tab = GetCharacterPos 4 text_spaces /\
  x (GetCharacterPos 1 text_tab) = S754_finite false 8388608 (-18) /\
  y (GetCharacterPos 1 text_tab) = S754_zero false.
Proof.
  split; [reflexivity|].
  destruct (tab_equals_four_spaces text_tab text_spaces 1%positive)
    as (H1 & H2 & H3); try reflexivity.
  split; [exact H1|]. split; [rewrite H2; reflexivity|exact H3].
Defined.

End Binary32.

(** * Further properties of the mutators, the cache and the walks *)

Section Mutators.

Context {F : Type} {FA : FloatArith F} {FS : FontStore F}.

(** X1. What a mutator stores is what the matching accessor returns,
    whether or not the guard of the mutator found a change. *)
Theorem mutators_accessors_round_trip (t : Text F) (s : String) (p : FontPtr)
    (n style : Z) :
  GetString (SetString s t) = s /\
  GetFont (SetFont p t) = Some (font_at p) /\
  GetCharacterSize (SetCharacterSize n t) = n /\
  GetStyle (SetStyle style t) = style.
Proof.
  unfold GetString, GetFont, GetCharacterSize, GetStyle. repeat split.
  - unfold SetFont. destruct (myFont t) as [q|] eqn:Eq; [|reflexivity].
    destruct (Pos.eqb_spec q p) as [->|Hne]; cbn [negb]; [rewrite Eq|]; reflexivity.
  - unfold SetCharacterSize.
    destruct (Z.eqb_spec (myCharacterSize t) n) as [E|E]; cbn [negb]; [exact E|reflexivity].
  - unfold SetStyle.
    destruct (Z.eqb_spec (myStyle t) style) as [E|E]; cbn [negb]; [exact E|reflexivity].
Qed.

Lemma Text_eq (t u : Text F) :
  base t = base u -> myString t = myString u -> myFont t = myFont u ->
  myCharacterSize t = myCharacterSize u -> myStyle t = myStyle u ->
  myRectUpdated t = myRectUpdated u -> myBaseRect t = myBaseRect u -> t = u.
Proof.
  destruct t, u. cbn. intros. subst. reflexivity.
Qed.

Ltac setter_simpl :=
  unfold SetString, SetFont, SetCharacterSize, SetStyle;
  repeat (cbn [base myString myFont myCharacterSize myStyle myRectUpdated myBaseRect negb];
          match goal with
          | |- context [Pos.eqb ?a ?a] => rewrite (Pos.eqb_refl a)
          | |- context [Z.eqb ?a ?a] => rewrite (Z.eqb_refl a)
          | H : ?a <> ?b |- context [Pos.eqb ?a ?b] =>
              rewrite (proj2 (Pos.eqb_neq a b) H)
          | H : ?a <> ?b |- context [Z.eqb ?a ?b] =>
              rewrite (proj2 (Z.eqb_neq a b) H)
          end);
  cbn [base myString myFont myCharacterSize myStyle myRectUpdated myBaseRect negb].

(** X2. Mutators of different attributes commute, and applying a mutator
    twice with the same value is the same as applying it once: the object
    after a series of mutations does not depend on their order, cache flag
    included. *)
Theorem mutators_commute (t : Text F) (s : String) (p : FontPtr) (n style : Z) :
  SetString s (SetFont p t) = SetFont p (SetString s t) /\
  SetString s (SetCharacterSize n t) = SetCharacterSize n (SetString s t) /\
  SetString s (SetStyle style t) = SetStyle style (SetString s t) /\
  SetFont p (SetCharacterSize n t) = SetCharacterSize n (SetFont p t) /\
  SetFont p (SetStyle style t) = SetStyle style (SetFont p t) /\
  SetCharacterSize n (SetStyle style t) = SetStyle style (SetCharacterSize n t) /\
  SetString s (SetString s t) = SetString s t /\
  SetFont p (SetFont p t) = SetFont p t /\
  SetCharacterSize n (SetCharacterSize n t) = SetCharacterSize n t /\
  SetStyle style (SetStyle style t) = SetStyle style t.
Proof.
  destruct t as [d str f sz st u r].
  destruct (Z.eqb_spec sz n) as [->|Hn], (Z.eqb_spec st style) as [->|Hs].
  all: destruct f as [f|]; [destruct (Pos.eqb_spec f p) as [->|Hp]|].
  all: repeat split; setter_simpl; reflexivity.
Qed.

End Mutators.

Section CacheUse.

Context {F : Type} {FA : FloatArith F} {FS : FontStore F}.

Lemma Render_ext (t u : Text F) :
  myString t = myString u -> myFont t = myFont u ->
  myCharacterSize t = myCharacterSize u -> myStyle t = myStyle u ->
  Render t = Render u.
Proof.
  intros Hs Hf Hn Hy. unfold Render. rewrite Hs, Hf, Hn, Hy. reflexivity.
Qed.

Lemma GetCharacterPos_ext (t u : Text F) (i : nat) :
  myString t = myString u -> myFont t = myFont u ->
  myCharacterSize t = myCharacterSize u -> myStyle t = myStyle u ->
  GetCharacterPos i t = GetCharacterPos i u.
Proof.
  intros Hs Hf Hn Hy. unfold GetCharacterPos. rewrite Hs, Hf, Hn, Hy. reflexivity.
Qed.

Lemma reachable_coherent (t : Text F) : reachable t -> cache_coherent t.
Proof.
  induction 1 as [d | d s p n | op t Hr IH].
  - intros _. reflexivity.
  - intros E. discriminate E.
  - apply cache_coherent_run, IH.
Qed.

(** X3. The cache cannot be observed.  On any object the program can
    hold, the bounding box query returns what a recomputation from the
    current attributes gives, [GetRect] returns its image under the
    transform, and having queried changes neither what [Render] issues,
    nor a character position, nor a later recomputation. *)
Theorem bounds_query_is_fresh (t : Text F) :
  reachable t ->
  fst (localBounds t) = computeRect t /\
  fst (GetRect t) =
    (let d := base t in
     let r := computeRect t in
     mkRect (toWorld (x (GetOrigin d)) (x (GetScale d)) (x (GetPosition d)) (Left r))
            (toWorld (y (GetOrigin d)) (y (GetScale d)) (y (GetPosition d)) (Top r))
            (toWorld (x (GetOrigin d)) (x (GetScale d)) (x (GetPosition d)) (Right r))
            (toWorld (y (GetOrigin d)) (y (GetScale d)) (y (GetPosition d)) (Bottom r))) /\
  computeRect (snd (GetRect t)) = computeRect t /\
  Render (snd (GetRect t)) = Render t /\
  (forall i, GetCharacterPos i (snd (GetRect t)) = GetCharacterPos i t).
Proof.
  intros Hr. pose proof (UpdateRect_coherent t (reachable_coherent t Hr)) as Hc.
  destruct (UpdateRect_fields t) as (Hs & Hf & Hn & Hy & Hb).
  unfold localBounds, GetRect, toWorld. cbn [fst snd]. rewrite Hc, Hb.
  repeat split.
  - apply computeRect_ext; assumption.
  - apply Render_ext; assumption.
  - intros i. apply GetCharacterPos_ext; assumption.
Qed.

(** X4. The font pointer of an object the program can hold is never
    null: the constructors and [SetFont] only ever store the address of a
    font, so [GetFont] always has a font to return. *)
Theorem font_never_null (t : Text F) :
  reachable t -> exists p, myFont t = Some p /\ GetFont t = Some (font_at p).
Proof.
  intros Hr. destruct (reachable_has_font t Hr) as [p Hp].
  exists p. split; [exact Hp|]. unfold GetFont. rewrite Hp. reflexivity.
Qed.

End CacheUse.

Section Positions.

Context {F : Type} {FA : FloatArith F} {FS : FontStore F}.

Lemma firstn_snoc {A} (i : nat) (l : list A) (d : A) :
  (i < length l)%nat -> firstn (S i) l = firstn i l ++ [nth i l d].
Proof.
  revert l. induction i as [|i IH]; intros [|a l] Hl; cbn in Hl; try lia.
  - reflexivity.
  - cbn [firstn nth app]. rewrite <- IH by lia. reflexivity.
Qed.

(** The clamp of the index changes nothing in the model: taking more
    characters than the string has takes the whole string. *)
Lemma GetCharacterPos_firstn (t : Text F) (p : FontPtr) (i : nat) :
  myFont t = Some p ->
  GetCharacterPos i t =
  fst (GetCharacterPos_walk (font_at p) (myCharacterSize t) (myStyle t)
         (firstn i (myString t))).
Proof.
  intros Hp. unfold GetCharacterPos, GetCharacterPos_walk. rewrite Hp.
  destruct (Nat.ltb_spec (length (myString t)) i) as [Hlt|Hge]; [|reflexivity].
  rewrite firstn_all, (firstn_all2 (n := i)) by lia. reflexivity.
Qed.

Lemma GetCharacterPos_walk_prev (font : Font F) (size style : Z) (s : String) (i : nat) :
  (i <= length s)%nat ->
  snd (GetCharacterPos_walk font size style (firstn i s)) = prevCharAt s i.
Proof.
  unfold GetCharacterPos_walk. destruct i as [|i]; intros Hi; [reflexivity|].
  rewrite (firstn_snoc i s 0) by lia. rewrite fold_left_app. cbn [fold_left prevCharAt].
  destruct (fold_left _ (firstn i s) _) as [position prevChar].
  unfold GetCharacterPos_step.
  repeat match goal with |- context [if ?b then _ else _] => destruct b end; reflexivity.
Qed.

(** Positions are computed incrementally: the position of index [i + 1]
    is one loop iteration on character [i] from the position of [i]. *)
Lemma GetCharacterPos_succ (t : Text F) (p : FontPtr) (i : nat) :
  myFont t = Some p -> (i < length (myString t))%nat ->
  GetCharacterPos (S i) t =
  fst (GetCharacterPos_step (font_at p) (myCharacterSize t) (has_style (myStyle t) Bold)
         (of_int (Advance (GetGlyph (font_at p) ch_space (myCharacterSize t)
                                    (has_style (myStyle t) Bold))))
         (of_int (GetLineSpacing (font_at p) (myCharacterSize t)))
         (GetCharacterPos i t, prevCharAt (myString t) i)
         (nth i (myString t) 0)).
Proof.
  intros Hp Hi. rewrite !(GetCharacterPos_firstn t p) by exact Hp.
  rewrite <- (GetCharacterPos_walk_prev (font_at p) (myCharacterSize t) (myStyle t)
                (myString t) i) by lia.
  rewrite (firstn_snoc i _ 0) by exact Hi.
  unfold GetCharacterPos_walk at 1. rewrite fold_left_app. cbn [fold_left].
  fold (GetCharacterPos_walk (font_at p) (myCharacterSize t) (myStyle t)
          (firstn i (myString t))).
  rewrite <- surjective_pairing. reflexivity.
Qed.

(** X5. A character position depends only on the characters before the
    index, the font, the size and the Bold bit: two texts that agree on
    these give the same position, whatever follows the index and whatever
    the italic and underline bits, the cache and the transform are.  In
    particular index 0 is always at (0, 0). *)
Theorem GetCharacterPos_prefix (t u : Text F) (i : nat) :
  myFont t = myFont u -> myCharacterSize t = myCharacterSize u ->
  has_style (myStyle t) Bold = has_style (myStyle u) Bold ->
  firstn i (myString t) = firstn i (myString u) ->
  GetCharacterPos i t = GetCharacterPos i u /\ GetCharacterPos 0 t = Vector2f_zero.
Proof.
  intros Hf Hn Hb Hs. split.
  - destruct (myFont t) as [p|] eqn:Hp.
    + rewrite (GetCharacterPos_firstn t p i Hp), (GetCharacterPos_firstn u p i (eq_sym Hf)).
      unfold GetCharacterPos_walk. rewrite Hs, Hn, Hb. reflexivity.
    + unfold GetCharacterPos. rewrite <- Hf, Hp. reflexivity.
  - unfold GetCharacterPos. destruct (myFont t); [|reflexivity].
    destruct (length (myString t) <? 0)%nat eqn:E; [|reflexivity].
    apply Nat.ltb_lt in E. lia.
Qed.

(** X6. Only line feeds and vertical tabs move the cursor down: on a
    string that has neither, every character position has y = 0. *)
Theorem GetCharacterPos_y_single_line (t : Text F) (i : nat) :
  ~ In ch_newline (myString t) -> ~ In ch_vtab (myString t) ->
  y (GetCharacterPos i t) = fzero.
Proof.
  intros Hn Hv. destruct (myFont t) as [p|] eqn:Hp;
    [|unfold GetCharacterPos; rewrite Hp; reflexivity].
  rewrite (GetCharacterPos_firstn t p i Hp). unfold GetCharacterPos_walk.
  assert (Hall : Forall (fun c => c <> ch_newline /\ c <> ch_vtab) (firstn i (myString t))).
  { apply (Forall_prefix _ i). apply Forall_forall. intros c Hc.
    split; intros ->; [exact (Hn Hc)|exact (Hv Hc)]. }
  set (step := GetCharacterPos_step _ _ _ _ _).
  assert (Hgen : forall st : PosState F, y (fst st) = fzero ->
            y (fst (fold_left step (firstn i (myString t)) st)) = fzero).
  { induction Hall as [|c s [Hc1 Hc2] _ IH]; intros st Hst; [exact Hst|].
    cbn [fold_left]. apply IH. destruct st as [position prevChar].
    unfold step, GetCharacterPos_step. cbn [fst] in Hst.
    destruct (c =? ch_space); [exact Hst|].
    destruct (c =? ch_tab); [exact Hst|].
    destruct (Z.eqb_spec c ch_vtab); [contradiction|].
    destruct (Z.eqb_spec c ch_newline); [contradiction|].
    exact Hst. }
  apply Hgen. reflexivity.
Qed.

(** X7. A line feed sends the cursor to the start of the next line: the
    position after a line feed at index [i] has x = 0 and the y of index
    [i] plus the line spacing; a vertical tab keeps x, kerning added, and
    moves y by four line spacings. *)
Theorem GetCharacterPos_line_break (t : Text F) (p : FontPtr) (i : nat) :
  myFont t = Some p -> (i < length (myString t))%nat ->
  let font := font_at p in
  let size := myCharacterSize t in
  let c := nth i (myString t) 0 in
  let here := GetCharacterPos i t in
  let lineSpacing := of_int (GetLineSpacing font size) in
  (c = ch_newline ->
   GetCharacterPos (S i) t = mkVector2f fzero (fadd (y here) lineSpacing)) /\
  (c = ch_vtab ->
   GetCharacterPos (S i) t =
   mkVector2f
     (fadd (x here) (of_int (GetKerning font (prevCharAt (myString t) i) ch_vtab size)))
     (fadd (y here) (fmul lineSpacing (of_int 4)))).
Proof.
  intros Hp Hi. cbn zeta. rewrite (GetCharacterPos_succ t p i Hp Hi).
  split; intros ->; reflexivity.
Qed.

End Positions.

Section Rendering.

Context {F : Type} {FA : FloatArith F} {FS : FontStore F}.

Lemma Render_unfold (t : Text F) (p : FontPtr) :
  myFont t = Some p -> myString t <> [] ->
  Render t =
  (let st := Render_walk (font_at p) (myCharacterSize t) (myStyle t) (myString t) in
   if has_style (myStyle t) Underlined
   then r_out st ++ underlineQuad (r_x st) (r_y st) (myCharacterSize t)
                      (has_style (myStyle t) Bold)
                      (GetTexCoords (GetImage (font_at p) (myCharacterSize t))
                                    (mkRect 1 1 1 1))
   else r_out st).
Proof.
  intros Hp Hs. unfold Render, Render_walk. rewrite Hp.
  destruct (myString t) as [|c s]; [congruence|reflexivity].
Qed.

(** The three loops move the horizontal cursor and [prevChar] alike, and
    the position loop and the box loop move the vertical one alike. *)
Lemma walks_in_step (font : Font F) (size style : Z) (s : String) :
  forall (ps : PosState F) (rs : RectState F) (ds : RenderState F),
    x (fst ps) = curWidth rs -> y (fst ps) = height rs -> snd ps = rs_prevChar rs ->
    r_x ds = x (fst ps) -> r_prevChar ds = snd ps ->
    let bold := has_style style Bold in
    let space := of_int (Advance (GetGlyph font ch_space size bold)) in
    let lineSpacing := of_int (GetLineSpacing font size) in
    let ps' := fold_left (GetCharacterPos_step font size bold space lineSpacing) s ps in
    let rs' := fold_left (UpdateRect_step font size bold (of_int size) space lineSpacing)
                         s rs in
    let ds' := fold_left
                 (Render_step font size bold (has_style style Underlined)
                    (if has_style style Italic then lit_0_208 else fzero)
                    space lineSpacing
                    (GetTexCoords (GetImage font size) (mkRect 1 1 1 1))) s ds in
    x (fst ps') = curWidth rs' /\ y (fst ps') = height rs' /\
    r_x ds' = x (fst ps').
Proof.
  induction s as [|c s IH]; intros ps rs ds H1 H2 H3 H4 H5; cbn zeta.
  - cbn [fold_left]. auto.
  - cbn [fold_left]. apply IH; clear IH;
      destruct ps as [position prevChar]; cbn [fst snd] in *;
      unfold GetCharacterPos_step, UpdateRect_step, Render_step;
      rewrite <- ?H3, ?H5, <- ?H1, <- ?H2, ?H4;
      (destruct (Z.eqb_spec c ch_space) as [->|_]; [reflexivity|]);
      (destruct (Z.eqb_spec c ch_tab) as [->|_]; [reflexivity|]);
      (destruct (Z.eqb_spec c ch_vtab) as [->|_]; [reflexivity|]);
      destruct (c =? ch_newline); reflexivity.
Qed.

(** X8. The three walks agree.  After the whole string, the current line
    width of the bounding box walk and the x cursor of [Render] are the x
    of the end position, and the height accumulated before the last line
    is its y; so the box is the end position's y plus the last line's
    height, and its width the larger of the earlier lines' width and the
    end position's x, before the italic and underline adjustments. *)
Theorem walks_agree (t : Text F) (p : FontPtr) :
  myFont t = Some p -> myString t <> [] ->
  let size := myCharacterSize t in
  let bold := has_style (myStyle t) Bold in
  let stop := GetCharacterPos (length (myString t)) t in
  let st := UpdateRect_walk (font_at p) size bold (myString t) in
  curWidth st = x stop /\ height st = y stop /\
  r_x (Render_walk (font_at p) size (myStyle t) (myString t)) = x stop /\
  Right (computeRect t) =
    italicAdjust (myStyle t) size (if flt (width st) (x stop) then x stop else width st) /\
  Bottom (computeRect t) =
    underlineAdjust (myStyle t) size bold (curHeight st) (fadd (y stop) (curHeight st)).
Proof.
  intros Hp Hs. cbn zeta.
  rewrite (GetCharacterPos_firstn t p _ Hp), firstn_all.
  destruct (walks_in_step (font_at p) (myCharacterSize t) (myStyle t) (myString t)
              (Vector2f_zero, 0) (mkRectState fzero fzero fzero fzero 0)
              (mkRenderState fzero (of_int (myCharacterSize t)) 0
                 [Cmd_SetTexture (GetImage (font_at p) (myCharacterSize t))]))
    as (E1 & E2 & E3); try reflexivity.
  cbn zeta in E1, E2, E3.
  fold (GetCharacterPos_walk (font_at p) (myCharacterSize t) (myStyle t) (myString t))
    in E1, E2, E3.
  fold (UpdateRect_walk (font_at p) (myCharacterSize t) (has_style (myStyle t) Bold)
          (myString t)) in E1, E2.
  fold (Render_walk (font_at p) (myCharacterSize t) (myStyle t) (myString t)) in E3.
  repeat split; auto.
  - unfold computeRect. rewrite Hp. destruct (myString t) as [|c s] eqn:Es; [congruence|].
    cbn [Right]. unfold lastLine_width. rewrite <- E1. reflexivity.
  - unfold computeRect. rewrite Hp. destruct (myString t) as [|c s] eqn:Es; [congruence|].
    cbn [Bottom]. unfold lastLine_height. rewrite <- E2. reflexivity.
Qed.

End Rendering.

Section RenderStream.

Context {F : Type} {FA : FloatArith F} {FS : FontStore F}.

Lemma count_quads (qs : list (list (RenderCmd F))) :
  Forall (fun q => is_glyphQuad q \/ is_underlineQuad q) qs ->
  quadCount (concat qs) = length qs /\
  vertexCount (concat qs) = (4 * length qs)%nat.
Proof.
  induction 1 as [|q qs Hq _ [IHq IHv]]; [split; reflexivity|].
  cbn [concat length]. rewrite quadCount_app, vertexCount_app, IHq, IHv.
  destruct Hq as [(px & py & k & g & ->) | (px & py & n & b & c & ->)];
    cbn; split; lia.
Qed.

Lemma quadsOf_kinds (font : Font F) (size style : Z) (px py : F) (c : Uint32) :
  Forall (fun q => is_glyphQuad q \/ is_underlineQuad q) (quadsOf font size style px py c) /\
  length (quadsOf font size style px py c) =
    ((if negb (is_special c) then 1 else 0) +
     (if has_style style Underlined then if (c =? ch_newline)%Z then 1 else 0 else 0))%nat.
Proof.
  unfold quadsOf.
  assert (Hg : forall k g, is_glyphQuad (glyphQuad px py k g) \/
                           is_underlineQuad (glyphQuad px py k g))
    by (intros; left; unfold is_glyphQuad; repeat eexists).
  assert (Hu : forall n b co, is_glyphQuad (underlineQuad px py n b co) \/
                              is_underlineQuad (underlineQuad px py n b co))
    by (intros; right; unfold is_underlineQuad; repeat eexists).
  destruct (has_style style Underlined), (c =? ch_newline), (is_special c);
    cbn [andb app negb length]; split; try reflexivity;
    repeat (apply Forall_cons; [apply Hg || apply Hu|]); apply Forall_nil.
Qed.

Lemma Render_step_out (font : Font F) (size style : Z) (st : RenderState F) (c : Uint32) :
  r_out (Render_step font size (has_style style Bold) (has_style style Underlined)
           (if has_style style Italic then lit_0_208 else fzero)
           (of_int (Advance (GetGlyph font ch_space size (has_style style Bold))))
           (of_int (GetLineSpacing font size))
           (GetTexCoords (GetImage font size) (mkRect 1 1 1 1)) st c) =
  r_out st ++
  concat (quadsOf font size style
            (fadd (r_x st) (of_int (GetKerning font (r_prevChar st) c size)))
            (r_y st) c).
Proof.
  unfold Render_step, quadsOf, is_special.
  destruct (Z.eqb_spec c ch_space) as [->|_];
    [destruct (has_style style Underlined); cbn; rewrite ?app_nil_r; reflexivity|].
  destruct (Z.eqb_spec c ch_tab) as [->|_];
    [destruct (has_style style Underlined); cbn; rewrite ?app_nil_r; reflexivity|].
  destruct (Z.eqb_spec c ch_newline) as [->|_];
    [destruct (has_style style Underlined); cbn; rewrite ?app_nil_r; reflexivity|].
  destruct (Z.eqb_spec c ch_vtab) as [->|_];
    [destruct (has_style style Underlined); cbn; rewrite ?app_nil_r; reflexivity|].
  rewrite andb_false_r. cbn [orb app concat r_out]. rewrite app_nil_r. reflexivity.
Qed.

Lemma Render_walk_out (font : Font F) (size style : Z) (s : String) :
  forall st : RenderState F,
  exists qs,
    r_out (fold_left
             (Render_step font size (has_style style Bold) (has_style style Underlined)
                (if has_style style Italic then lit_0_208 else fzero)
                (of_int (Advance (GetGlyph font ch_space size (has_style style Bold))))
                (of_int (GetLineSpacing font size))
                (GetTexCoords (GetImage font size) (mkRect 1 1 1 1))) s st) =
    r_out st ++ concat qs /\
    Forall (fun q => is_glyphQuad q \/ is_underlineQuad q) qs /\
    length qs =
      (regularCount s + if has_style style Underlined then newlineCount s else 0)%nat.
Proof.
  induction s as [|c s IH]; intros st.
  - exists []. cbn. rewrite app_nil_r. repeat split; [constructor|].
    destruct (has_style style Underlined); reflexivity.
  - cbn [fold_left].
    match goal with |- context [fold_left ?f s ?st1] =>
      destruct (IH st1) as (qs & Ho & Hk & Hl) end.
    rewrite Ho, Render_step_out, <- app_assoc, <- concat_app.
    eexists. split; [reflexivity|].
    destruct (quadsOf_kinds font size style
                (fadd (r_x st) (of_int (GetKerning font (r_prevChar st) c size)))
                (r_y st) c) as [Hk1 Hl1].
    split; [apply Forall_app; split; assumption|].
    rewrite length_app, Hl, Hl1. unfold regularCount, newlineCount. cbn [filter].
    destruct (is_special c), (has_style style Underlined), (c =? ch_newline);
      cbn [negb length]; lia.
Qed.

(** X9. Whatever the text, the commands of [Render] are well formed:
    nothing at all, or one texture binding followed by whole quads, each
    a glyph quad or an underline quad, that is one [Begin], four vertices
    and one [End]; there are four times as many vertices as quads. *)
Theorem Render_stream_well_formed (t : Text F) :
  exists quads,
    Forall (fun q => is_glyphQuad q \/ is_underlineQuad q) quads /\
    (Render t = [] /\ quads = [] \/
     exists image, Render t = Cmd_SetTexture image :: concat quads) /\
    quadCount (Render t) = length quads /\
    vertexCount (Render t) = (4 * quadCount (Render t))%nat.
Proof.
  destruct (myFont t) as [p|] eqn:Hp.
  2: { exists []. rewrite (Render_empty t (or_intror Hp)). cbn. repeat split; auto. }
  destruct (myString t) as [|c0 s0] eqn:Es.
  { exists []. rewrite (Render_empty t (or_introl Es)). cbn. repeat split; auto. }
  rewrite (Render_unfold t p Hp) by congruence. cbn zeta.
  destruct (Render_walk_out (font_at p) (myCharacterSize t) (myStyle t) (myString t)
              (mkRenderState fzero (of_int (myCharacterSize t)) 0
                 [Cmd_SetTexture (GetImage (font_at p) (myCharacterSize t))]))
    as (qs & Ho & Hk & _).
  fold (Render_walk (font_at p) (myCharacterSize t) (myStyle t) (myString t)) in Ho.
  cbn [r_out app] in Ho.
  remember (Render_walk (font_at p) (myCharacterSize t) (myStyle t) (myString t)) as st
    eqn:Est.
  clear Est. rewrite Ho.
  destruct (has_style (myStyle t) Underlined).
  - set (u := underlineQuad (r_x st) (r_y st) (myCharacterSize t)
                (has_style (myStyle t) Bold)
                (GetTexCoords (GetImage (font_at p) (myCharacterSize t)) (mkRect 1 1 1 1))).
    assert (Hk' : Forall (fun q => is_glyphQuad q \/ is_underlineQuad q) (qs ++ [u])).
    { apply Forall_app. split; [exact Hk|]. constructor; [|constructor].
      right. unfold is_underlineQuad, u. repeat eexists. }
    destruct (count_quads _ Hk') as [Hq Hv].
    assert (Ec : concat (qs ++ [u]) = concat qs ++ u)
      by (rewrite concat_app; cbn [concat]; rewrite app_nil_r; reflexivity).
    rewrite Ec in Hq, Hv.
    exists (qs ++ [u]). split; [exact Hk'|]. split.
    + right. eexists. rewrite Ec. reflexivity.
    + cbn [quadCount vertexCount app]. rewrite Hq, Hv. split; reflexivity.
  - exists qs. destruct (count_quads _ Hk) as [Hq Hv].
    split; [exact Hk|]. split.
    + right. eexists. reflexivity.
    + cbn [quadCount vertexCount]. rewrite Hq, Hv. split; reflexivity.
Qed.

(** X10. Number of quads of any text with a font and a non-empty
    string: one per character that is not a space, tab, line feed or
    vertical tab, and, when underlined, one per line feed plus one for the
    last line; four vertices are submitted for each of them. *)
Theorem Render_quad_count_general (t : Text F) (p : FontPtr) :
  myFont t = Some p -> myString t <> [] ->
  let quads :=
    (regularCount (myString t) +
     if has_style (myStyle t) Underlined then newlineCount (myString t) + 1 else 0)%nat in
  quadCount (Render t) = quads /\
  vertexCount (Render t) = (4 * quads)%nat.
Proof.
  intros Hp Hs. cbv zeta. rewrite (Render_unfold t p Hp Hs). cbn zeta. unfold Render_walk.
  match goal with |- context [fold_left ?f (myString t) ?st0] =>
    destruct (Render_walk_out (font_at p) (myCharacterSize t) (myStyle t) (myString t) st0)
      as (qs & Ho & Hk & Hl) end.
  rewrite Ho. cbn [r_out app].
  destruct (count_quads _ Hk) as [Hq Hv].
  destruct (has_style (myStyle t) Underlined).
  - cbn [quadCount vertexCount]. rewrite quadCount_app, vertexCount_app, Hq, Hv, Hl.
    cbn. split; lia.
  - cbn [quadCount vertexCount]. rewrite Hq, Hv, Hl. split; lia.
Qed.

End RenderStream.

Section GlyphPlacement.

Context {F : Type} {FA : FloatArith F} {FS : FontStore F}.

Lemma Render_walk_snoc (font : Font F) (size style : Z) (s : String) (c : Uint32) :
  Render_walk font size style (s ++ [c]) =
  Render_step font size (has_style style Bold) (has_style style Underlined)
    (if has_style style Italic then lit_0_208 else fzero)
    (of_int (Advance (GetGlyph font ch_space size (has_style style Bold))))
    (of_int (GetLineSpacing font size))
    (GetTexCoords (GetImage font size) (mkRect 1 1 1 1))
    (Render_walk font size style s) c.
Proof. unfold Render_walk. rewrite fold_left_app. reflexivity. Qed.

Lemma Render_walk_one_line (t : Text F) (p : FontPtr) (k : nat) :
  myFont t = Some p ->
  Forall (fun c => c <> ch_newline /\ c <> ch_vtab) (myString t) ->
  (k <= length (myString t))%nat ->
  Render_walk (font_at p) (myCharacterSize t) (myStyle t) (firstn k (myString t)) =
  mkRenderState (x (GetCharacterPos k t)) (of_int (myCharacterSize t))
    (prevCharAt (myString t) k)
    (Cmd_SetTexture (GetImage (font_at p) (myCharacterSize t))
       :: flat_map (glyphQuadAt t p) (seq 0 k)).
Proof.
  intros Hp Hall. induction k as [|k IH]; intros Hk.
  - rewrite (GetCharacterPos_firstn t p 0 Hp). reflexivity.
  - rewrite (firstn_snoc k (myString t) 0) by lia. rewrite Render_walk_snoc, IH by lia.
    rewrite (GetCharacterPos_succ t p k Hp) by lia.
    rewrite seq_S, flat_map_app. cbn [flat_map Nat.add prevCharAt]. rewrite app_nil_r.
    assert (Hc : nth k (myString t) 0 <> ch_newline /\ nth k (myString t) 0 <> ch_vtab).
    { rewrite Forall_forall in Hall. apply Hall. apply nth_In. lia. }
    destruct Hc as [Hc1 Hc2].
    assert (Eq : glyphQuadAt t p k =
                 if is_special (nth k (myString t) 0) then []
                 else glyphQuad
                        (fadd (x (GetCharacterPos k t))
                              (of_int (GetKerning (font_at p) (prevCharAt (myString t) k)
                                         (nth k (myString t) 0) (myCharacterSize t))))
                        (of_int (myCharacterSize t))
                        (if has_style (myStyle t) Italic then lit_0_208 else fzero)
                        (GetGlyph (font_at p) (nth k (myString t) 0) (myCharacterSize t)
                                  (has_style (myStyle t) Bold)))
      by reflexivity.
    rewrite Eq. clear Eq.
    unfold is_special, Render_step, GetCharacterPos_step.
    cbn [r_x r_y r_prevChar r_out].
    set (c := nth k (myString t) 0) in *.
    rewrite (proj2 (Z.eqb_neq c ch_newline) Hc1), (proj2 (Z.eqb_neq c ch_vtab) Hc2).
    rewrite andb_false_r.
    destruct (c =? ch_space); [cbn [orb]; rewrite app_nil_r; reflexivity|].
    destruct (c =? ch_tab); [cbn [orb]; rewrite app_nil_r; reflexivity|].
    reflexivity.
Qed.

(** X11. On a one-line text (no line feed, no vertical tab) with a font
    and a non-empty string, [Render] draws every glyph at its character
    position: after the texture binding come, in order, the quad of each
    character that is not a space or a tab, placed at the x of
    [GetCharacterPos] for its index plus its kerning, on the baseline
    y = character size; then, if underlined, one underline from x = 0 to
    the position after the last character. *)
Theorem Render_one_line (t : Text F) (p : FontPtr) :
  myFont t = Some p -> myString t <> [] ->
  ~ In ch_newline (myString t) -> ~ In ch_vtab (myString t) ->
  let size := myCharacterSize t in
  let n := length (myString t) in
  Render t =
  Cmd_SetTexture (GetImage (font_at p) size)
    :: flat_map (glyphQuadAt t p) (seq 0 n) ++
       (if has_style (myStyle t) Underlined
        then underlineQuad (x (GetCharacterPos n t)) (of_int size) size
               (has_style (myStyle t) Bold)
               (GetTexCoords (GetImage (font_at p) size) (mkRect 1 1 1 1))
        else []).
Proof.
  intros Hp Hs Hn Hv. cbn zeta.
  assert (Hall : Forall (fun c => c <> ch_newline /\ c <> ch_vtab) (myString t)).
  { apply Forall_forall. intros c Hc. split; intros ->; [exact (Hn Hc)|exact (Hv Hc)]. }
  pose proof (Render_walk_one_line t p (length (myString t)) Hp Hall (Nat.le_refl _)) as Hw.
  rewrite firstn_all in Hw.
  rewrite (Render_unfold t p Hp Hs). cbn zeta. rewrite Hw. cbn [r_out r_x r_y].
  destruct (has_style (myStyle t) Underlined); [reflexivity|].
  rewrite app_nil_r. reflexivity.
Qed.

End GlyphPlacement.

(** ** Quads of a text of regular characters *)

Section RegularText.

Context {F : Type} {FA : FloatArith F} {FS : FontStore F}.

Lemma regular_not_special (c : Uint32) : regular c -> is_special c = false.
Proof.
  intros Hc. destruct (regular_eqb c Hc) as (E1 & E2 & E3 & E4).
  unfold is_special. rewrite E1, E2, E3, E4. reflexivity.
Qed.

Lemma nth_map_seq {A : Type} (f : nat -> A) (d : A) (n i : nat) :
  (i < n)%nat -> nth i (map f (seq 0 n)) d = f i.
Proof.
  intros Hi. rewrite (nth_indep _ d (f 0%nat)) by (rewrite length_map, length_seq; exact Hi).
  rewrite map_nth, seq_nth by exact Hi. reflexivity.
Qed.

(** C5. For a text of the program whose string is non-empty and has only
    regular characters, [Render] binds the font texture and then submits
    exactly one quad per character, in order, followed by one underline
    quad exactly when the Underlined bit is set, and nothing else.  The
    quad of character [i] is one [Begin], the four textured vertices of
    lines 283-286 for the glyph of that character, placed at the x of its
    character position plus its kerning on the baseline y = character
    size, and one [End]; the underline quad is the four vertices of lines
    299-302 from x = 0 to the position after the last character.  So the
    commands hold [length] quads, plus one if underlined, and four
    vertices for each of them. *)
Theorem Render_quad_count (t : Text F) :
  reachable t -> myString t <> [] -> Forall regular (myString t) ->
  let s := myString t in
  let n := length s in
  let size := myCharacterSize t in
  let bold := has_style (myStyle t) Bold in
  let underlined := has_style (myStyle t) Underlined in
  let k := if has_style (myStyle t) Italic then lit_0_208 else fzero in
  exists p glyphQuads underline,
    myFont t = Some p /\
    Render t =
      Cmd_SetTexture (GetImage (font_at p) size) :: concat glyphQuads ++ underline /\
    length glyphQuads = n /\
    (forall i, (i < n)%nat ->
       let c := nth i s 0 in
       let g := GetGlyph (font_at p) c size bold in
       let rect := Rectangle g in
       let coord := TexCoords g in
       let px := fadd (x (GetCharacterPos i t))
                      (of_int (GetKerning (font_at p) (prevCharAt s i) c size)) in
       let py := of_int size in
       nth i glyphQuads [] =
       [ Cmd_Begin QuadList;
         Cmd_AddVertex
           (fsub (fadd px (of_int (Left rect))) (fmul k (of_int (Top rect))))
           (fadd py (of_int (Top rect))) (Left coord) (Top coord);
         Cmd_AddVertex
           (fsub (fadd px (of_int (Right rect))) (fmul k (of_int (Top rect))))
           (fadd py (of_int (Top rect))) (Right coord) (Top coord);
         Cmd_AddVertex
           (fsub (fadd px (of_int (Right rect))) (fmul k (of_int (Bottom rect))))
           (fadd py (of_int (Bottom rect))) (Right coord) (Bottom coord);
         Cmd_AddVertex
           (fsub (fadd px (of_int (Left rect))) (fmul k (of_int (Bottom rect))))
           (fadd py (of_int (Bottom rect))) (Left coord) (Bottom coord);
         Cmd_End ]) /\
    (if underlined
     then
       let coords := GetTexCoords (GetImage (font_at p) size) (mkRect 1 1 1 1) in
       let xe := x (GetCharacterPos n t) in
       let top := fadd (of_int size) (fmul (of_int size) lit_0_1) in
       let bottom :=
         fadd top (fmul (of_int size) (if bold then lit_0_1 else lit_0_07)) in
       underline =
       [ Cmd_Begin QuadList;
         Cmd_AddVertex fzero top (Left coords) (Top coords);
         Cmd_AddVertex xe top (Right coords) (Top coords);
         Cmd_AddVertex xe bottom (Right coords) (Bottom coords);
         Cmd_AddVertex fzero bottom (Left coords) (Bottom coords);
         Cmd_End ]
     else underline = []) /\
    quadCount (Render t) = (n + if underlined then 1 else 0)%nat /\
    vertexCount (Render t) = (4 * (n + if underlined then 1 else 0))%nat.
Proof.
  intros Hr Hne Hreg. cbv zeta.
  destruct (reachable_has_font t Hr) as [p Hp].
  assert (Hall : Forall (fun c => c <> ch_newline /\ c <> ch_vtab) (myString t)).
  { eapply Forall_impl; [|exact Hreg]. intros c (_ & _ & Hv & Hn). split; assumption. }
  pose proof (Render_walk_one_line t p (length (myString t)) Hp Hall (Nat.le_refl _)) as Hw.
  rewrite firstn_all in Hw.
  destruct (Render_regular t p Hp Hne Hreg) as (_ & _ & _ & _ & _ & _ & Hq & Hv).
  cbv zeta in Hq, Hv.
  exists p, (map (glyphQuadAt t p) (seq 0 (length (myString t)))).
  exists (if has_style (myStyle t) Underlined
          then underlineQuad (x (GetCharacterPos (length (myString t)) t))
                 (of_int (myCharacterSize t)) (myCharacterSize t)
                 (has_style (myStyle t) Bold)
                 (GetTexCoords (GetImage (font_at p) (myCharacterSize t)) (mkRect 1 1 1 1))
          else []).
  split; [exact Hp|]. split; [|split; [|split; [|split; [|split]]]].
  - rewrite (Render_unfold t p Hp Hne). cbv zeta. rewrite Hw. cbn [r_out r_x r_y].
    rewrite <- flat_map_concat_map.
    destruct (has_style (myStyle t) Underlined); [reflexivity|].
    rewrite app_nil_r. reflexivity.
  - rewrite length_map, length_seq. reflexivity.
  - intros i Hi. rewrite nth_map_seq by exact Hi.
    unfold glyphQuadAt.
    rewrite regular_not_special; [reflexivity|].
    rewrite Forall_forall in Hreg. apply Hreg, nth_In, Hi.
  - destruct (has_style (myStyle t) Underlined); reflexivity.
  - exact Hq.
  - exact Hv.
Qed.

End RegularText.

(** * Further properties over binary32 *)

Section Quadrant.

Context {FS : FontStore B32.float}.

Lemma cursor_ok_nonneg (v : B32.float) : cursor_ok v -> B32.leb fzero v = true.
Proof.
  destruct v as [s|s| |s m e]; cbn [cursor_ok]; intros H; try contradiction.
  - reflexivity.
  - subst s. reflexivity.
  - destruct H as [-> _]. reflexivity.
Qed.

(** One iteration of the position loop, with nothing negative to add,
    keeps both coordinates non-negative and does not move y up. *)
Lemma GetCharacterPos_step_quadrant (font : Font B32.float) (size : Z) (bold : bool)
    (position : Vector2f B32.float) (prevChar c : Uint32) :
  (forall a b n, 0 <= GetKerning font a b n) ->
  (forall a n b, 0 <= Advance (GetGlyph font a n b)) ->
  0 <= GetLineSpacing font size ->
  cursor_ok (x position) -> cursor_ok (y position) ->
  let st :=
    GetCharacterPos_step font size bold
      (of_int (Advance (GetGlyph font ch_space size bold)))
      (of_int (GetLineSpacing font size)) (position, prevChar) c in
  cursor_ok (x (fst st)) /\ cursor_ok (y (fst st)) /\
  B32.leb (y position) (y (fst st)) = true.
Proof.
  intros Hk Ha Hl Hx Hy. cbn zeta. unfold GetCharacterPos_step.
  destruct (fadd_cursor_ok (x position) (of_int (GetKerning font prevChar c size)) Hx
              (of_int_cursor_ok _ (Hk _ _ _))) as [Hx1 _].
  set (x1 := fadd (x position) (of_int (GetKerning font prevChar c size))) in *.
  pose proof (of_int_cursor_ok _ Hl) as Hls.
  pose proof (SFleb_refl _ Hy) as Hyy.
  cbn [x y].
  destruct (c =? ch_space).
  { cbn [fst x y]. split; [apply fadd_cursor_ok; [exact Hx1|apply of_int_cursor_ok, Ha]|].
    split; assumption. }
  destruct (c =? ch_tab).
  { cbn [fst x y].
    split; [apply fadd_cursor_ok;
            [exact Hx1|apply fmul_four_cursor_ok, of_int_cursor_ok, Ha]|].
    split; assumption. }
  destruct (c =? ch_vtab).
  { cbn [fst x y]. split; [exact Hx1|].
    apply fadd_cursor_ok; [exact Hy|apply fmul_four_cursor_ok, Hls]. }
  destruct (c =? ch_newline).
  { cbn [fst x y]. split; [exact I|]. apply fadd_cursor_ok; assumption. }
  cbn [fst x y]. split; [apply fadd_cursor_ok; [exact Hx1|apply of_int_cursor_ok, Ha]|].
  split; assumption.
Qed.

Lemma GetCharacterPos_walk_quadrant (font : Font B32.float) (size : Z) (bold : bool)
    (s : String) :
  (forall a b n, 0 <= GetKerning font a b n) ->
  (forall a n b, 0 <= Advance (GetGlyph font a n b)) ->
  0 <= GetLineSpacing font size ->
  forall st : PosState B32.float,
    cursor_ok (x (fst st)) -> cursor_ok (y (fst st)) ->
    let st' :=
      fold_left
        (GetCharacterPos_step font size bold
           (of_int (Advance (GetGlyph font ch_space size bold)))
           (of_int (GetLineSpacing font size)))
        s st in
    cursor_ok (x (fst st')) /\ cursor_ok (y (fst st')) /\
    B32.leb (y (fst st)) (y (fst st')) = true.
Proof.
  intros Hk Ha Hl. induction s as [|c s IH]; intros st Hx Hy; cbn zeta.
  - cbn [fold_left]. split; [exact Hx|]. split; [exact Hy|]. apply SFleb_refl, Hy.
  - cbn [fold_left]. destruct st as [position prevChar]. cbn [fst] in Hx, Hy.
    destruct (GetCharacterPos_step_quadrant font size bold position prevChar c
                Hk Ha Hl Hx Hy) as (Hx1 & Hy1 & Hl1).
    cbn zeta in Hx1, Hy1, Hl1.
    destruct (IH _ Hx1 Hy1) as (Hx2 & Hy2 & Hl2). cbn zeta in Hx2, Hy2, Hl2.
    split; [exact Hx2|]. split; [exact Hy2|].
    cbn [fst]. eapply SFleb_trans; [| | |exact Hl1|exact Hl2]; assumption.
Qed.

(** X12. With a font whose kerning, advances and line spacing are not
    negative, every character position of every string, line feeds
    included, lies in the quadrant x >= 0, y >= 0, is never NaN, and y
    does not decrease with the index, in binary32 arithmetic. *)
Theorem GetCharacterPos_quadrant (t : Text B32.float) (i j : nat) :
  (forall p, myFont t = Some p ->
     (forall a b n, 0 <= GetKerning (font_at p) a b n) /\
     (forall a n b, 0 <= Advance (GetGlyph (font_at p) a n b)) /\
     0 <= GetLineSpacing (font_at p) (myCharacterSize t)) ->
  (i <= j)%nat ->
  B32.leb fzero (x (GetCharacterPos i t)) = true /\
  B32.leb fzero (y (GetCharacterPos i t)) = true /\
  B32.leb (y (GetCharacterPos i t)) (y (GetCharacterPos j t)) = true.
Proof.
  intros Hfont Hij. destruct (myFont t) as [p|] eqn:Hp.
  2: { unfold GetCharacterPos. rewrite Hp. repeat split. }
  destruct (Hfont p eq_refl) as (Hk & Ha & Hl).
  rewrite !(GetCharacterPos_firstn t p _ Hp). unfold GetCharacterPos_walk.
  replace j with (i + (j - i))%nat by lia. rewrite firstn_plus, fold_left_app.
  destruct (GetCharacterPos_walk_quadrant (font_at p) (myCharacterSize t)
              (has_style (myStyle t) Bold) (firstn i (myString t)) Hk Ha Hl
              (Vector2f_zero, 0) (of_int_cursor_ok 0 (Z.le_refl 0))
              (of_int_cursor_ok 0 (Z.le_refl 0))) as (Hx & Hy & _).
  cbn zeta in Hx, Hy.
  destruct (GetCharacterPos_walk_quadrant (font_at p) (myCharacterSize t)
              (has_style (myStyle t) Bold) (firstn (j - i) (skipn i (myString t)))
              Hk Ha Hl _ Hx Hy) as (_ & _ & Hl2).
  cbn zeta in Hl2.
  split; [apply cursor_ok_nonneg, Hx|]. split; [apply cursor_ok_nonneg, Hy|exact Hl2].
Qed.

End Quadrant.

(** ** Sign of sums and products *)

Lemma shr_nonneg (z e n : Z) : 0 <= z -> 0 <= shr_m (fst (shr (rec0 z) e n)).
Proof.
  intros Hz. unfold shr. destruct n as [|p|p]; cbn [fst]; try exact Hz.
  rewrite iter_pos_nat. destruct (Pos2Nat.is_succ p) as [k ->].
  destruct (shr_iter z k Hz) as [-> _].
  apply Z.div_pos; [exact Hz|]. apply pow2_pos. lia.
Qed.

Lemma round_nearest_even_nonneg (z : Z) (l : location) :
  0 <= z -> 0 <= round_nearest_even z l.
Proof.
  intros Hz. unfold round_nearest_even.
  destruct l as [|[| |]]; try destruct (Z.even z); lia.
Qed.

(** Rounding a positive mantissa gives zero, a positive number or [+inf],
    whatever the exponent. *)
Lemma binary_round_aux_not_negative (m : positive) (e : Z) :
  not_negative (binary_round_aux 24 128 false (Zpos m) e loc_Exact).
Proof.
  unfold binary_round_aux, shr_fexp. cbn [shr_record_of_loc]. fold (rec0 (Zpos m)).
  pose proof (shr_nonneg (Zpos m) e (fexp32 (Zdigits2 (Zpos m) + e) - e) ltac:(lia)) as H1.
  destruct (shr (rec0 (Zpos m)) e (fexp32 (Zdigits2 (Zpos m) + e) - e)) as [mrs1 e1].
  cbn [fst] in H1.
  pose proof (round_nearest_even_nonneg _ (loc_of_shr_record mrs1) H1) as Hq.
  set (q := round_nearest_even (shr_m mrs1) (loc_of_shr_record mrs1)) in *.
  pose proof (shr_nonneg q e1 (fexp32 (Zdigits2 q + e1) - e1) Hq) as H2.
  unfold rec0 in H2.
  destruct (shr {| shr_m := q; shr_r := false; shr_s := false |} e1
              (fexp32 (Zdigits2 q + e1) - e1)) as [mrs2 e2].
  cbn [fst] in H2.
  destruct (shr_m mrs2) as [|m2|m2]; [exact I| |lia].
  destruct (e2 <=? 128 - 24); reflexivity.
Qed.

Lemma not_negative_add (a b : spec_float) :
  not_negative a -> not_negative b -> not_negative (SFadd 24 128 a b).
Proof.
  intros Ha Hb.
  destruct a as [sa|sa| |sa ma ea], b as [sb|sb| |sb mb eb];
    cbn [not_negative] in Ha, Hb; try contradiction; subst.
  - destruct sa, sb; exact I.
  - reflexivity.
  - reflexivity.
  - reflexivity.
  - reflexivity.
  - reflexivity.
  - reflexivity.
  - reflexivity.
  - cbn [SFadd cond_Zopp].
    change (Zpos (fst (shl_align ma ea (Z.min ea eb)))
            + Zpos (fst (shl_align mb eb (Z.min ea eb))))
      with (Zpos (fst (shl_align ma ea (Z.min ea eb))
                  + fst (shl_align mb eb (Z.min ea eb)))).
    cbn [binary_normalize]. unfold binary_round.
    destruct (shl_align _ _ _) as [mz ez]. apply binary_round_aux_not_negative.
Qed.

Lemma not_negative_mul (a : spec_float) (m : positive) (e : Z) :
  not_negative a ->
  not_negative (SFmul 24 128 a (S754_finite false m e)) /\
  not_negative (SFmul 24 128 (S754_finite false m e) a).
Proof.
  intros Ha. destruct a as [sa|sa| |sa ma ea]; cbn [not_negative] in Ha;
    try contradiction; subst.
  - split; exact I.
  - split; reflexivity.
  - split; cbn [SFmul xorb]; apply binary_round_aux_not_negative.
Qed.

Lemma not_negative_above (a b : spec_float) :
  not_negative a -> SFltb a b = true -> not_negative b.
Proof.
  intros Ha Hlt.
  destruct a as [sa|sa| |sa ma ea], b as [sb|sb| |sb mb eb];
    cbn [not_negative] in Ha |- *; try contradiction; subst; try exact I;
    try (destruct sb; [discriminate Hlt|reflexivity]);
    try discriminate Hlt.
  all: destruct sa; discriminate Hlt.
Qed.

Lemma cursor_ok_not_negative (v : spec_float) : cursor_ok v -> not_negative v.
Proof.
  destruct v; cbn [cursor_ok not_negative]; intros H; try exact H; try exact I.
  destruct H as [H _]. exact H.
Qed.

Lemma not_negative_leb (v : spec_float) : not_negative v -> SFleb (S754_zero false) v = true.
Proof.
  destruct v as [s|s| |s m e]; cbn [not_negative]; intros H; try contradiction;
    subst; reflexivity.
Qed.

Section BoxSign.

Context {FS : FontStore B32.float}.

Lemma of_int_not_negative (n : Z) : 0 <= n -> not_negative (of_int n).
Proof. intros H. apply cursor_ok_not_negative, cursor_ok_of_int, H. Qed.

Lemma fadd_not_negative (a b : B32.float) :
  not_negative a -> not_negative b -> not_negative (fadd a b).
Proof. apply not_negative_add. Qed.

Lemma larger_not_negative (a b : B32.float) :
  not_negative a -> not_negative (if flt a b then b else a).
Proof.
  intros Ha. destruct (flt a b) eqn:E; [|exact Ha].
  exact (not_negative_above a b Ha E).
Qed.

(** One iteration of the box loop keeps [width], [height] and
    [curHeight] not negative, whatever the glyphs and the kerning are. *)
Lemma UpdateRect_step_not_negative (font : Font B32.float) (size : Z) (bold : bool)
    (charSize space : B32.float) (st : RectState B32.float) (c : Uint32) :
  0 <= GetLineSpacing font size ->
  not_negative (width st) -> not_negative (height st) -> not_negative (curHeight st) ->
  let st' :=
    UpdateRect_step font size bold charSize space (of_int (GetLineSpacing font size)) st c in
  not_negative (width st') /\ not_negative (height st') /\ not_negative (curHeight st').
Proof.
  intros Hl Hw Hh Hc. cbn zeta. unfold UpdateRect_step.
  pose proof (of_int_not_negative _ Hl) as Hls.
  destruct (c =? ch_space); [cbn; auto|].
  destruct (c =? ch_tab); [cbn; auto|].
  destruct (c =? ch_vtab).
  { cbn [width height curHeight]. split; [exact Hw|]. split; [|exact I].
    apply fadd_not_negative; [exact Hh|].
    apply (not_negative_mul _ 8388608 (-21) Hls). }
  destruct (c =? ch_newline).
  { cbn [width height curHeight]. split; [apply larger_not_negative, Hw|].
    split; [apply fadd_not_negative; assumption|exact I]. }
  cbn [width height curHeight]. split; [exact Hw|]. split; [exact Hh|].
  apply larger_not_negative, Hc.
Qed.

Lemma UpdateRect_walk_not_negative (font : Font B32.float) (size : Z) (bold : bool)
    (s : String) :
  0 <= GetLineSpacing font size ->
  let st := UpdateRect_walk font size bold s in
  not_negative (width st) /\ not_negative (height st) /\ not_negative (curHeight st).
Proof.
  intros Hl. cbn zeta. unfold UpdateRect_walk.
  assert (Hgen : forall st : RectState B32.float,
            not_negative (width st) -> not_negative (height st) ->
            not_negative (curHeight st) ->
            let st' := fold_left
                         (UpdateRect_step font size bold (of_int size)
                            (of_int (Advance (GetGlyph font ch_space size bold)))
                            (of_int (GetLineSpacing font size))) s st in
            not_negative (width st') /\ not_negative (height st') /\
            not_negative (curHeight st')).
  { induction s as [|c s IH]; intros st Hw Hh Hc; cbn zeta; cbn [fold_left]; [auto|].
    destruct (UpdateRect_step_not_negative font size bold (of_int size)
                (of_int (Advance (GetGlyph font ch_space size bold))) st c Hl Hw Hh Hc)
      as (Hw1 & Hh1 & Hc1).
    exact (IH _ Hw1 Hh1 Hc1). }
  apply Hgen; exact I.
Qed.

(** X13. The recomputed bounding box is never inverted and never NaN.
    For any glyphs, advances and kerning, negative ones included, as long
    as the line spacing and the character size are not negative, the box
    has left = top = 0, right >= 0 and bottom >= 0 in binary32
    arithmetic. *)
Theorem computeRect_not_inverted (t : Text B32.float) :
  0 <= myCharacterSize t ->
  (forall p, myFont t = Some p ->
     0 <= GetLineSpacing (font_at p) (myCharacterSize t)) ->
  Left (computeRect t) = fzero /\ Top (computeRect t) = fzero /\
  B32.leb fzero (Right (computeRect t)) = true /\
  B32.leb fzero (Bottom (computeRect t)) = true.
Proof.
  intros Hsize Hfont. unfold computeRect.
  destruct (myFont t) as [p|]; [|repeat split].
  destruct (myString t) as [|c0 s0]; [repeat split|].
  set (s := c0 :: s0). cbn [Left Top Right Bottom].
  destruct (UpdateRect_walk_not_negative (font_at p) (myCharacterSize t)
              (has_style (myStyle t) Bold) s (Hfont p eq_refl)) as (Hw & Hh & Hc).
  cbn zeta in Hw, Hh, Hc.
  set (st := UpdateRect_walk (font_at p) (myCharacterSize t)
               (has_style (myStyle t) Bold) s) in *.
  pose proof (of_int_not_negative _ Hsize) as Hn.
  split; [reflexivity|]. split; [reflexivity|]. split; apply not_negative_leb.
  - unfold italicAdjust, lastLine_width.
    pose proof (larger_not_negative (width st) (curWidth st) Hw) as Hlw.
    destruct (has_style (myStyle t) Italic); [|exact Hlw].
    apply fadd_not_negative; [exact Hlw|].
    apply (not_negative_mul _ 13958644 (-26) Hn).
  - unfold underlineAdjust, lastLine_height, underlineOffset, underlineThickness.
    pose proof (fadd_not_negative _ _ Hh Hc) as Hlh.
    destruct (has_style (myStyle t) Underlined); [|exact Hlh].
    destruct (flt (curHeight st) _); [|exact Hlh].
    apply fadd_not_negative; [exact Hlh|].
    apply fadd_not_negative; [apply (not_negative_mul _ 13421773 (-27) Hn)|].
    destruct (has_style (myStyle t) Bold);
      [apply (not_negative_mul _ 13421773 (-27) Hn)
      |apply (not_negative_mul _ 9395241 (-27) Hn)].
Qed.

End BoxSign.

(** ** Order on cursor values, products of normal numbers *)

Lemma SFltb_SFleb (a b : spec_float) :
  cursor_ok a -> cursor_ok b ->
  (SFltb a b = true -> SFleb a b = true) /\
  (SFltb a b = false -> SFleb b a = true).
Proof.
  intros Ha Hb.
  destruct a as [sa|sa| |sa ma ea], b as [sb|sb| |sb mb eb];
    cbn [cursor_ok] in Ha, Hb; try contradiction;
    repeat match goal with
    | H : _ /\ _ |- _ => destruct H
    | H : ?s = false |- _ => subst s
    end;
    try (split; intros H; try reflexivity; discriminate H).
  rewrite !SFleb_finite. unfold SFltb, SFcompare.
  change (Pos.compare_cont Eq ma mb) with (Pos.compare ma mb).
  destruct (Z.compare_spec ea eb) as [E|E|E];
    [destruct (Pos.compare_spec ma mb) as [E'|E'|E']| |];
    split; intros H; try discriminate H; lia.
Qed.

(** The larger of two cursor values, as the box loop takes it. *)
Lemma larger_cursor_ok (w c : B32.float) :
  cursor_ok w -> cursor_ok c ->
  let m := if flt w c then c else w in
  cursor_ok m /\ B32.leb w m = true /\ B32.leb c m = true.
Proof.
  intros Hw Hc. cbn zeta. destruct (SFltb_SFleb w c Hw Hc) as [H1 H2].
  change (flt w c) with (SFltb w c). destruct (SFltb w c).
  - split; [exact Hc|]. split; [apply H1; reflexivity|apply SFleb_refl, Hc].
  - split; [exact Hw|]. split; [apply SFleb_refl, Hw|apply H2; reflexivity].
Qed.

Lemma of_int_exponent (n : Z) :
  0 < n ->
  B32.of_int n = S754_infinity false \/
  exists m e, B32.of_int n = S754_finite false m e /\ normal m e /\ -23 <= e.
Proof.
  intros Hn. destruct n as [|p|p]; try lia. unfold B32.of_int.
  cbn [binary_normalize]. unfold binary_round, B32.prec, B32.emax. fold (ndigits p).
  pose proof (ndigits_pos p) as Hd.
  assert (Hf : fexp32 (ndigits p + 0) = ndigits p - 24) by (rewrite fexp32_eq; lia).
  rewrite Hf.
  assert (Hres : forall mz ez, -23 <= ez -> ez <= fexp32 (ndigits mz + ez) ->
            24 <= ndigits mz ->
            round_pos false mz ez = S754_infinity false \/
            exists m e, round_pos false mz ez = S754_finite false m e /\
                        normal m e /\ -23 <= e).
  { intros mz ez H1 H2 H3.
    destruct (round_pos_normal false mz ez (shift_ok_emin mz ez ltac:(lia)) H2 H3)
      as [-> | (m' & e' & -> & Hnorm & Hle)]; [left; reflexivity|right].
    exists m', e'. repeat split; try apply Hnorm. lia. }
  destruct (Z.ltb_spec (ndigits p - 24) 0) as [Hlt|Hge].
  - destruct (shl_align_le p 0 (ndigits p - 24) ltac:(lia)) as [H1 H2].
    specialize (H2 Hlt).
    destruct (shl_align p 0 (ndigits p - 24)) as [mz ez]. cbn [fst snd] in H1, H2.
    subst ez.
    assert (HD : ndigits mz = 24).
    { rewrite (ndigits_shift p (0 - (ndigits p - 24)) mz) by (try lia; exact H1). lia. }
    rewrite binary_round_aux_spec by (apply shift_ok_emin; lia).
    apply Hres; rewrite ?fexp32_eq; lia.
  - unfold shl_align. destruct (ndigits p - 24 - 0) eqn:E; try lia;
      (rewrite binary_round_aux_spec by (apply shift_ok_emin; lia));
      apply Hres; rewrite ?fexp32_eq; lia.
Qed.

(** The product of two positive normal numbers that does not underflow. *)
Lemma mul_normal (m1 m2 : positive) (e1 e2 : Z) :
  normal m1 e1 -> normal m2 e2 -> -172 <= e1 + e2 ->
  cursor_ok (SFmul 24 128 (S754_finite false m1 e1) (S754_finite false m2 e2)).
Proof.
  intros H1 H2 He.
  pose proof (normal_ge m1 e1 H1) as L1. pose proof (normal_ge m2 e2 H2) as L2.
  destruct H1 as [D1 _], H2 as [D2 _].
  pose proof (ndigits_bounds m1) as [_ U1]. pose proof (ndigits_bounds m2) as [_ U2].
  rewrite D1 in U1. rewrite D2 in U2.
  pose proof (ndigits_bounds (m1 * m2)) as [LB UB].
  pose proof (ndigits_pos (m1 * m2)) as HP.
  rewrite Pos2Z.inj_mul in LB, UB.
  assert (H46 : 2 ^ 46 <= Zpos m1 * Zpos m2)
    by (change (2 ^ 46) with (2 ^ 23 * 2 ^ 23); apply Z.mul_le_mono_nonneg; lia).
  assert (H48 : Zpos m1 * Zpos m2 < 2 ^ 48)
    by (change (2 ^ 48) with (2 ^ 24 * 2 ^ 24); apply Z.mul_lt_mono_nonneg; lia).
  assert (HD : 47 <= ndigits (m1 * m2) <= 48).
  { split.
    - assert (Hlt : 2 ^ 46 < 2 ^ ndigits (m1 * m2)) by lia.
      apply Z.pow_lt_mono_r_iff in Hlt; lia.
    - assert (Hlt : 2 ^ (ndigits (m1 * m2) - 1) < 2 ^ 48) by lia.
      apply Z.pow_lt_mono_r_iff in Hlt; lia. }
  cbn [SFmul xorb].
  assert (Hs : shift_ok (m1 * m2) (e1 + e2)) by (right; rewrite fexp32_eq; lia).
  rewrite binary_round_aux_spec by exact Hs.
  destruct (round_pos_normal false (m1 * m2) (e1 + e2) Hs) as [-> | (m & e & -> & Hn & _)];
    try (rewrite ?fexp32_eq; lia); cbn [cursor_ok]; auto.
Qed.

Lemma italic_allowance_cursor_ok (size : Z) :
  0 <= size -> cursor_ok (fmul lit_0_208 (of_int size) : B32.float).
Proof.
  intros Hs. change (cursor_ok (B32.mul B32.lit_0_208 (B32.of_int size))).
  destruct (Z.eq_dec size 0) as [->|Hne]; [exact I|].
  destruct (of_int_exponent size ltac:(lia)) as [-> | (m & e & -> & Hn & He)];
    [reflexivity|].
  apply mul_normal; [split; [reflexivity|lia]|exact Hn|lia].
Qed.

Section Enclosure.

Context {FS : FontStore B32.float}.

(** One iteration of the box loop, with nothing negative to add: the
    widths stay cursor values, [width] does not shrink, and the cursor
    before the iteration is covered by the larger of [width] and
    [curWidth] after it. *)
Lemma UpdateRect_step_covers (font : Font B32.float) (size : Z) (bold : bool)
    (charSize lineSpacing : B32.float) (st : RectState B32.float) (c : Uint32) :
  (forall a b n, 0 <= GetKerning font a b n) ->
  (forall a n b, 0 <= Advance (GetGlyph font a n b)) ->
  cursor_ok (curWidth st) -> cursor_ok (width st) ->
  let st' :=
    UpdateRect_step font size bold charSize
      (of_int (Advance (GetGlyph font ch_space size bold))) lineSpacing st c in
  cursor_ok (curWidth st') /\ cursor_ok (width st') /\
  B32.leb (width st) (width st') = true /\
  (B32.leb (curWidth st) (curWidth st') = true \/
   B32.leb (curWidth st) (width st') = true).
Proof.
  intros Hk Ha Hc Hw. cbn zeta. unfold UpdateRect_step.
  destruct (fadd_cursor_ok (curWidth st) (of_int (GetKerning font (rs_prevChar st) c size))
              Hc (of_int_cursor_ok _ (Hk _ _ _))) as [Hc1 Hl1].
  set (c1 := fadd (curWidth st) (of_int (GetKerning font (rs_prevChar st) c size))) in *.
  pose proof (SFleb_refl _ Hw) as Hww.
  assert (Hadd : forall a, cursor_ok a ->
            cursor_ok (fadd c1 a) /\ B32.leb (curWidth st) (fadd c1 a) = true).
  { intros a Hga. destruct (fadd_cursor_ok c1 a Hc1 Hga) as [Hx2 Hl2].
    split; [exact Hx2|].
    apply (SFleb_trans (curWidth st) c1 (fadd c1 a)); assumption. }
  destruct (c =? ch_space).
  { cbn [curWidth width]. destruct (Hadd _ (of_int_cursor_ok _ (Ha ch_space size bold))).
    auto. }
  destruct (c =? ch_tab).
  { cbn [curWidth width].
    destruct (Hadd _ (fmul_four_cursor_ok _ (of_int_cursor_ok _ (Ha ch_space size bold)))).
    auto. }
  destruct (c =? ch_vtab); [cbn [curWidth width]; auto|].
  destruct (c =? ch_newline).
  { cbn [curWidth width]. destruct (larger_cursor_ok (width st) c1 Hw Hc1) as (Hm & Hwm & Hcm).
    cbn zeta in Hm, Hwm, Hcm.
    split; [exact I|]. split; [exact Hm|]. split; [exact Hwm|]. right.
    apply (SFleb_trans (curWidth st) c1 _); assumption. }
  cbn [curWidth width]. destruct (Hadd _ (of_int_cursor_ok _ (Ha c size bold))). auto.
Qed.

Lemma UpdateRect_walk_covers (font : Font B32.float) (size : Z) (bold : bool)
    (charSize lineSpacing : B32.float) (s : String) :
  (forall a b n, 0 <= GetKerning font a b n) ->
  (forall a n b, 0 <= Advance (GetGlyph font a n b)) ->
  forall st : RectState B32.float,
    cursor_ok (curWidth st) -> cursor_ok (width st) ->
    let st' :=
      fold_left
        (UpdateRect_step font size bold charSize
           (of_int (Advance (GetGlyph font ch_space size bold))) lineSpacing) s st in
    cursor_ok (curWidth st') /\ cursor_ok (width st') /\
    B32.leb (width st) (width st') = true /\
    B32.leb (curWidth st) (lastLine_width st') = true.
Proof.
  intros Hk Ha. induction s as [|c s IH]; intros st Hc Hw; cbn zeta; cbn [fold_left].
  - destruct (larger_cursor_ok (width st) (curWidth st) Hw Hc) as (_ & _ & Hcm).
    split; [exact Hc|]. split; [exact Hw|]. split; [apply SFleb_refl, Hw|exact Hcm].
  - destruct (UpdateRect_step_covers font size bold charSize lineSpacing st c Hk Ha Hc Hw)
      as (Hc1 & Hw1 & Hl1 & Hcov).
    cbn zeta in Hc1, Hw1, Hl1, Hcov.
    destruct (IH _ Hc1 Hw1) as (Hc2 & Hw2 & Hl2 & Hcov2). cbn zeta in Hc2, Hw2, Hl2, Hcov2.
    set (st1 := UpdateRect_step _ _ _ _ _ _ st c) in *.
    set (st2 := fold_left _ s st1) in *.
    destruct (larger_cursor_ok (width st2) (curWidth st2) Hw2 Hc2) as (Hm & Hwm & _).
    cbn zeta in Hm, Hwm. fold (lastLine_width st2) in Hm, Hwm.
    split; [exact Hc2|]. split; [exact Hw2|].
    split; [apply (SFleb_trans _ (width st1) _); assumption|].
    destruct Hcov as [Hcov|Hcov].
    + apply (SFleb_trans _ (curWidth st1) _); assumption.
    + apply (SFleb_trans _ (width st1) _); try assumption.
      apply (SFleb_trans _ (width st2) _); assumption.
Qed.

(** X14. The bounding box covers every character position horizontally:
    with a font whose kerning and advances are not negative and a
    character size that is not negative, the x of any character position,
    on whatever line, is at most the right side of the recomputed box, in
    binary32 arithmetic. *)
Theorem computeRect_covers_positions (t : Text B32.float) (i : nat) :
  0 <= myCharacterSize t ->
  (forall p, myFont t = Some p ->
     (forall a b n, 0 <= GetKerning (font_at p) a b n) /\
     (forall a n b, 0 <= Advance (GetGlyph (font_at p) a n b))) ->
  B32.leb (x (GetCharacterPos i t)) (Right (computeRect t)) = true.
Proof.
  intros Hsize Hfont. destruct (myFont t) as [p|] eqn:Hp.
  2: { unfold GetCharacterPos, computeRect. rewrite Hp. reflexivity. }
  destruct (Hfont p eq_refl) as [Hk Ha].
  rewrite (GetCharacterPos_firstn t p i Hp).
  unfold computeRect. rewrite Hp.
  destruct (myString t) as [|c0 s0] eqn:Es.
  { rewrite firstn_nil. reflexivity. }
  rewrite <- Es. cbn [Right].
  set (font := font_at p). set (size := myCharacterSize t).
  set (bold := has_style (myStyle t) Bold).
  (* the box walk over the prefix has the position as its cursor *)
  destruct (walks_in_step font size (myStyle t) (firstn i (myString t))
              (Vector2f_zero, 0) (mkRectState fzero fzero fzero fzero 0)
              (mkRenderState fzero (of_int size) 0 [Cmd_SetTexture (GetImage font size)]))
    as (E1 & _ & _); try reflexivity.
  cbn zeta in E1.
  fold (GetCharacterPos_walk font size (myStyle t) (firstn i (myString t))) in E1.
  fold bold in E1. fold (UpdateRect_walk font size bold (firstn i (myString t))) in E1.
  rewrite E1.
  (* the rest of the walk starts from there *)
  assert (Hsplit : UpdateRect_walk font size bold (myString t) =
                   fold_left
                     (UpdateRect_step font size bold (of_int size)
                        (of_int (Advance (GetGlyph font ch_space size bold)))
                        (of_int (GetLineSpacing font size)))
                     (skipn i (myString t))
                     (UpdateRect_walk font size bold (firstn i (myString t)))).
  { unfold UpdateRect_walk. rewrite <- fold_left_app, firstn_skipn. reflexivity. }
  destruct (UpdateRect_walk_covers font size bold (of_int size)
              (of_int (GetLineSpacing font size)) (firstn i (myString t)) Hk Ha
              (mkRectState fzero fzero fzero fzero 0)
              (of_int_cursor_ok 0 (Z.le_refl 0)) (of_int_cursor_ok 0 (Z.le_refl 0)))
    as (Hc1 & Hw1 & _ & _).
  cbn zeta in Hc1, Hw1.
  fold (UpdateRect_walk font size bold (firstn i (myString t))) in Hc1, Hw1.
  destruct (UpdateRect_walk_covers font size bold (of_int size)
              (of_int (GetLineSpacing font size)) (skipn i (myString t)) Hk Ha
              _ Hc1 Hw1) as (Hc2 & Hw2 & _ & Hcov).
  cbn zeta in Hc2, Hw2, Hcov. rewrite <- Hsplit in Hc2, Hw2, Hcov.
  set (st := UpdateRect_walk font size bold (myString t)) in *.
  destruct (larger_cursor_ok (width st) (curWidth st) Hw2 Hc2) as (Hm & _ & _).
  cbn zeta in Hm. fold (lastLine_width st) in Hm.
  unfold italicAdjust. destruct (has_style (myStyle t) Italic); [|exact Hcov].
  destruct (fadd_cursor_ok (lastLine_width st) (fmul lit_0_208 (of_int size)) Hm
              (italic_allowance_cursor_ok size Hsize)) as [Hr Hle].
  apply (SFleb_trans _ (lastLine_width st) _); assumption.
Qed.

End Enclosure.

(** * The further properties on the sample font *)

Section MoreExamples.

Import Sample.

Lemma font_line_spacing_nonnegative : 0 <= GetLineSpacing font 30.
Proof. cbn. lia. Qed.

Lemma bounds_query_is_fresh_witness :
  reachable underlined_g /\
  fst (localBounds underlined_g) = computeRect underlined_g /\
  Render (snd (GetRect underlined_g)) = Render underlined_g.
Proof.
  split; [exact reachable_underlined_g|].
  destruct (bounds_query_is_fresh underlined_g reachable_underlined_g)
    as (H1 & _ & _ & H4 & _).
  split; [exact H1|exact H4].
Defined.

Lemma font_never_null_witness :
  reachable underlined_g /\
  exists p, myFont underlined_g = Some p /\ GetFont underlined_g = Some (font_at p).
Proof.
  split; [exact reachable_underlined_g|].
  exact (font_never_null underlined_g reachable_underlined_g).
Defined.

Lemma GetCharacterPos_prefix_witness :
  let u := SetStyle Italic text_mixed in
  myFont text_ab = myFont u /\ myCharacterSize text_ab = myCharacterSize u /\
  has_style (myStyle text_ab) Bold = has_style (myStyle u) Bold /\
  firstn 1 (myString text_ab) = firstn 1 (myString u) /\
  GetCharacterPos 1 text_ab = GetCharacterPos 1 u.
Proof.
  cbn zeta. repeat (split; [reflexivity|]).
  apply (GetCharacterPos_prefix text_ab (SetStyle Italic text_mixed) 1); reflexivity.
Defined.

Lemma not_in_mixed (c : Uint32) : c = ch_newline \/ c = ch_vtab -> ~ In c (myString text_mixed).
Proof.
  intros Hc H. cbn in H. unfold ch_newline, ch_vtab in Hc.
  repeat (destruct H as [H|H]; [subst c; destruct Hc; discriminate|]). exact H.
Qed.

Lemma GetCharacterPos_y_single_line_witness :
  ~ In ch_newline (myString text_mixed) /\ ~ In ch_vtab (myString text_mixed) /\
  y (GetCharacterPos 4 text_mixed) = fzero.
Proof.
  split; [apply not_in_mixed; auto|]. split; [apply not_in_mixed; auto|].
  apply (GetCharacterPos_y_single_line text_mixed 4); apply not_in_mixed; auto.
Defined.

Lemma GetCharacterPos_line_break_witness :
  myFont text_lines = Some 1%positive /\ (2 < length (myString text_lines))%nat /\
  nth 2 (myString text_lines) 0 = ch_newline /\
  GetCharacterPos 3 text_lines =
    mkVector2f fzero (fadd (y (GetCharacterPos 2 text_lines)) (of_int 34)).
Proof.
  split; [reflexivity|]. split; [cbn; lia|]. split; [reflexivity|].
  apply (proj1 (GetCharacterPos_line_break text_lines 1%positive 2 eq_refl
                  ltac:(cbn; lia))).
  reflexivity.
Defined.

Lemma walks_agree_witness :
  myFont text_lines = Some 1%positive /\ myString text_lines <> [] /\
  curWidth (UpdateRect_walk font 30 false (myString text_lines)) =
    x (GetCharacterPos 5 text_lines) /\
  height (UpdateRect_walk font 30 false (myString text_lines)) =
    y (GetCharacterPos 5 text_lines).
Proof.
  split; [reflexivity|]. split; [discriminate|].
  destruct (walks_agree text_lines 1%positive eq_refl ltac:(discriminate))
    as (H1 & H2 & _).
  split; [exact H1|exact H2].
Defined.

Lemma Render_quad_count_general_witness :
  let t := SetStyle Underlined text_lines in
  myFont t = Some 1%positive /\ myString t <> [] /\
  quadCount (Render t) = 6%nat /\ vertexCount (Render t) = 24%nat.
Proof.
  cbn zeta. split; [reflexivity|]. split; [discriminate|].
  destruct (Render_quad_count_general (SetStyle Underlined text_lines) 1%positive
              eq_refl ltac:(discriminate)) as [Hq Hv].
  split; [rewrite Hq|rewrite Hv]; reflexivity.
Defined.

Lemma Render_one_line_witness :
  let t := SetStyle Underlined text_mixed in
  myFont t = Some 1%positive /\ myString t <> [] /\
  ~ In ch_newline (myString t) /\ ~ In ch_vtab (myString t) /\
  Render t =
  Cmd_SetTexture image
    :: flat_map (glyphQuadAt t 1%positive) (seq 0 5) ++
       underlineQuad (x (GetCharacterPos 5 t)) (of_int 30) 30 false coords.
Proof.
  cbn zeta. split; [reflexivity|]. split; [discriminate|].
  split; [apply not_in_mixed; auto|]. split; [apply not_in_mixed; auto|].
  exact (Render_one_line (SetStyle Underlined text_mixed) 1%positive eq_refl
           ltac:(discriminate) (not_in_mixed _ (or_introl eq_refl))
           (not_in_mixed _ (or_intror eq_refl))).
Defined.

Lemma GetCharacterPos_quadrant_witness :
  (forall p, myFont text_lines = Some p ->
     (forall a b n, 0 <= GetKerning (font_at p) a b n) /\
     (forall a n b, 0 <= Advance (GetGlyph (font_at p) a n b)) /\
     0 <= GetLineSpacing (font_at p) (myCharacterSize text_lines)) /\
  B32.leb fzero (x (GetCharacterPos 4 text_lines)) = true /\
  B32.leb fzero (y (GetCharacterPos 4 text_lines)) = true /\
  B32.leb (y (GetCharacterPos 2 text_lines)) (y (GetCharacterPos 4 text_lines)) = true.
Proof.
  assert (H : forall p, myFont text_lines = Some p ->
     (forall a b n, 0 <= GetKerning (font_at p) a b n) /\
     (forall a n b, 0 <= Advance (GetGlyph (font_at p) a n b)) /\
     0 <= GetLineSpacing (font_at p) (myCharacterSize text_lines)).
  { intros p _. destruct font_nonnegative as [Hk Ha].
    split; [exact Hk|]. split; [exact Ha|exact font_line_spacing_nonnegative]. }
  split; [exact H|].
  destruct (GetCharacterPos_quadrant text_lines 2 4 H ltac:(lia)) as (_ & _ & H3).
  destruct (GetCharacterPos_quadrant text_lines 4 4 H ltac:(lia)) as (H1 & H2 & _).
  split; [exact H1|]. split; [exact H2|exact H3].
Defined.

Lemma computeRect_not_inverted_witness :
  0 <= myCharacterSize text_lines /\
  (forall p, myFont text_lines = Some p ->
     0 <= GetLineSpacing (font_at p) (myCharacterSize text_lines)) /\
  B32.leb fzero (Right (computeRect text_lines)) = true /\
  B32.leb fzero (Bottom (computeRect text_lines)) = true.
Proof.
  assert (H : forall p, myFont text_lines = Some p ->
     0 <= GetLineSpacing (font_at p) (myCharacterSize text_lines))
    by (intros p _; exact font_line_spacing_nonnegative).
  split; [cbn; lia|]. split; [exact H|].
  destruct (computeRect_not_inverted text_lines ltac:(cbn; lia) H) as (_ & _ & H3 & H4).
  split; [exact H3|exact H4].
Defined.

Lemma computeRect_covers_positions_witness :
  0 <= myCharacterSize text_lines /\
  (forall p, myFont text_lines = Some p ->
     (forall a b n, 0 <= GetKerning (font_at p) a b n) /\
     (forall a n b, 0 <= Advance (GetGlyph (font_at p) a n b))) /\
  B32.leb (x (GetCharacterPos 2 text_lines)) (Right (computeRect text_lines)) = true.
Proof.
  assert (H : forall p, myFont text_lines = Some p ->
     (forall a b n, 0 <= GetKerning (font_at p) a b n) /\
     (forall a n b, 0 <= Advance (GetGlyph (font_at p) a n b)))
    by (intros p _; exact font_nonnegative).
  split; [cbn; lia|]. split; [exact H|].
  exact (computeRect_covers_positions text_lines 2 ltac:(cbn; lia) H).
Defined.

Lemma reachable_underlined_abc : reachable underlined_abc.
Proof.
  change underlined_abc
    with (run (Op_SetStyle (Underlined + Italic))
              (Text_make drawable [97; 98; 99] 1%positive 30)).
  apply reach_run, reach_make.
Qed.

Lemma Render_quad_count_witness :
  let t := underlined_abc in
  reachable t /\ myString t <> [] /\ Forall regular (myString t) /\
  (exists glyphQuads underline,
     Render t = Cmd_SetTexture image :: concat glyphQuads ++ underline /\
     length glyphQuads = 3%nat /\
     nth 1 glyphQuads [] =
       [ Cmd_Begin QuadList;
         Cmd_AddVertex (S754_finite false 9915335 (-19)) (of_int 16) (of_int 0) (of_int 0);
         Cmd_AddVertex (S754_finite false 16731079 (-19)) (of_int 16) (of_int 1) (of_int 0);
         Cmd_AddVertex (S754_finite false 14986248 (-19)) (of_int 32) (of_int 1) (of_int 1);
         Cmd_AddVertex (S754_finite false 16341008 (-20)) (of_int 32) (of_int 0) (of_int 1);
         Cmd_End ] /\
     underline =
       [ Cmd_Begin QuadList;
         Cmd_AddVertex (of_int 0) (of_int 33) (of_int 0) (of_int 0);
         Cmd_AddVertex (of_int 45) (of_int 33) (of_int 1) (of_int 0);
         Cmd_AddVertex (of_int 45) (S754_finite false 9201254 (-18)) (of_int 1) (of_int 1);
         Cmd_AddVertex (of_int 0) (S754_finite false 9201254 (-18)) (of_int 0) (of_int 1);
         Cmd_End ]) /\
  quadCount (Render t) = 4%nat /\ vertexCount (Render t) = 16%nat.
Proof.
  cbn zeta.
  assert (Hreg : Forall regular (myString underlined_abc))
    by (repeat constructor; apply regular_letter; lia).
  assert (Hne : myString underlined_abc <> []) by discriminate.
  split; [exact reachable_underlined_abc|]. split; [exact Hne|]. split; [exact Hreg|].
  destruct (Render_quad_count underlined_abc reachable_underlined_abc Hne Hreg)
    as (p & gs & ul & Hp & Hrender & Hlen & Hquad & Hul & Hq & Hv).
  split; [|split; [exact Hq|exact Hv]].
  exists gs, ul. split; [exact Hrender|]. split; [exact Hlen|]. split.
  - rewrite (Hquad 1%nat ltac:(cbn; lia)). vm_compute. reflexivity.
  - cbn [underlined_abc SetStyle myStyle negb] in Hul.
    change (has_style _ Underlined) with true in Hul.
    rewrite Hul. vm_compute. reflexivity.
Defined.

End MoreExamples.
